(** * Bundle-size report: size measurement, aggregation, diff and rendering

    A shallow embedding of [src/report-bundle-size.js] and of
    [src/scripts/append-extended-bundle-comment.js], with the properties the
    specification states about them.

    Modelling conventions.
    - An object the programs build in memory ([obj]) holds its own
      properties in the order [Object.keys] lists them (array indices
      first, in ascending order, then the other names in order of creation)
      and the prototype an assignment to [__proto__] gave it, if any.  An
      assignment [o[k] = v] is [objSet]; [o[k]] finds own properties, then
      those of that prototype, then the members of [Object.prototype]
      ([objectPrototype]), as the language does.
    - Byte counts are JavaScript numbers holding integers, modelled as [Z];
      the result of an arithmetic expression is a [jsnum], [None] being NaN.
    - A document obtained from [JSON.parse] is a [doc]: an integer, or an
      object of [part]s ([__global], [__files], a page, ...); a part is an
      integer or an object of [entry]s; an entry is an integer or an
      object of which only the integer properties [raw] and [gzip] are
      kept, and which has no other own property.  An object lists its own
      properties in [Object.keys] order, each name once.  Strings,
      booleans, arrays, fractions and [null] inside a document are not
      modelled.  This covers every document the program persists at
      [analysisPath]; of an extended document it covers [__global],
      [__pages] and [__files], and the keys of [__routes], which is all
      that the modelled lists depend on.  [None : option doc] is [null].
    - The manifests of the bundler are taken well-typed ([Manifests]), and
      so is the snapshot [outputJson] the program builds ([Output]).
    - The memoisation cache [memoryCache] is a finite map; the run threads
      it, together with the trace of file reads, through every measurement.
    - Node library functions ([path.join], [path.relative], the file store
      behind [fs.existsSync] / [fs.readFileSync], [Buffer.byteLength],
      [gzipSize.sync], [JSON.parse]) are the fields of the class [Node].
      A path that exists is a readable text file, and the store does not
      change while the program runs.
    - Console lines and markdown tables are renderings, in list order, of
      the lists the code builds; the lists are what is modelled. *)

From Stdlib Require Import Ascii.
From stdpp Require Import base option numbers list strings gmap sorting pretty.

Local Set Warnings "-register-all".
Local Set Warnings "-clear-no-such-hyp".

(** * Part I: the embedding *)

(** ** JavaScript values *)

Module JS.

(** A JavaScript number produced by arithmetic: an integer, or NaN. *)
Definition jsnum : Type := option Z.

(** *** Parsed documents *)

(** What a part of a document holds under a key: a number, or an object
    with its properties [raw] and [gzip], where it has them. *)
Inductive entry : Type :=
| ENum (n : Z)
| EObj (rawField gzipField : option Z).

(** A number, or an object with its own properties in [Object.keys]
    order. *)
Inductive node (A : Type) : Type :=
| Num (n : Z)
| Obj (fields : list (string * A)).

Arguments Num {A} n.
Arguments Obj {A} fields.

(** What a document holds under a key, and a parsed document. *)
Definition part : Type := node entry.
Definition doc : Type := node part.

(** What [o[k]] evaluates to when it is defined: a value of the document,
    or a member inherited from a built-in prototype (a function such as
    [constructor] or [toString], or the prototype object itself for
    [__proto__]). *)
Inductive found (A : Type) : Type :=
| Val (a : A)
| Builtin.

Arguments Val {A} a.
Arguments Builtin {A}.

(** The property names of [Object.prototype], which every object
    inherits, and those of [Number.prototype], which a number reaches
    first. *)
Definition objectPrototype : list string :=
  ["constructor"; "__defineGetter__"; "__defineSetter__"; "hasOwnProperty";
   "__lookupGetter__"; "__lookupSetter__"; "isPrototypeOf";
   "propertyIsEnumerable"; "toString"; "valueOf"; "__proto__";
   "toLocaleString"].

Definition numberPrototype : list string :=
  ["constructor"; "toExponential"; "toFixed"; "toPrecision"; "toString";
   "valueOf"; "toLocaleString"].

(** The property names the programs write out in [x.name]; none of them is
    the name of a built-in member. *)
Definition literalNames : list string :=
  ["__global"; "__pages"; "__files"; "__routes"; "raw"; "gzip"].

(** Lookup among own properties. *)
Fixpoint ownGet {A : Type} (l : list (string * A)) (k : string) : option A :=
  match l with
  | [] => None
  | (k', v) :: l' => if decide (k' = k) then Some v else ownGet l' k
  end.

(** [Object.keys(v)]: a number has no own keys. *)
Definition keys {A : Type} (v : node A) : list string :=
  match v with
  | Num _ => []
  | Obj fields => fields.*1
  end.

(** [v[k]] for a computed key [k]: an own property, or else a member of
    the prototype chain of [v]. *)
Definition lookup {A : Type} (v : node A) (k : string) : option (found A) :=
  match v with
  | Num _ =>
      if decide (k ∈ numberPrototype ++ objectPrototype)
      then Some Builtin else None
  | Obj fields =>
      match ownGet fields k with
      | Some a => Some (Val a)
      | None => if decide (k ∈ objectPrototype) then Some Builtin else None
      end
  end.

(** [v.name] for one of the [literalNames]: only an own property can have
    such a name.  [None] is [undefined]. *)
Definition read {A : Type} (v : node A) (name : string) : option A :=
  match v with
  | Num _ => None
  | Obj fields => ownGet fields name
  end.

(** [v?.name] where [v] may be [null]. *)
Definition optRead {A : Type} (v : option (node A)) (name : string)
  : option A :=
  match v with
  | None => None
  | Some d => read d name
  end.

(** [x.raw] and [x.gzip] of a looked-up [x]: a number and a built-in member
    have neither. *)
Definition rawOf (x : found entry) : option Z :=
  match x with
  | Val (EObj rawField _) => rawField
  | _ => None
  end.

Definition gzipOf (x : found entry) : option Z :=
  match x with
  | Val (EObj _ gzipField) => gzipField
  | _ => None
  end.

(** ToNumber of the value of a property: [undefined] converts to NaN, and
    so does an object. *)
Definition numberOf (e : option entry) : jsnum :=
  match e with
  | Some (ENum n) => Some n
  | _ => None
  end.

(** ToBoolean: [undefined], [null] and [0] are falsy; objects, functions
    included, are truthy. *)
Class Truthy (A : Type) : Type := truthy : A -> bool.

#[global] Instance entry_truthy : Truthy entry := fun e =>
  match e with
  | ENum n => negb (n =? 0)%Z
  | EObj _ _ => true
  end.

#[global] Instance node_truthy {A : Type} : Truthy (node A) := fun v =>
  match v with
  | Num n => negb (n =? 0)%Z
  | Obj _ => true
  end.

#[global] Instance found_truthy {A : Type} `{Truthy A} : Truthy (found A) :=
  fun x =>
  match x with
  | Val a => truthy a
  | Builtin => true
  end.

#[global] Instance option_truthy {A : Type} `{Truthy A} : Truthy (option A) :=
  fun x =>
  match x with
  | Some a => truthy a
  | None => false
  end.

(** [v] when it is truthy, as the value a guard [if (v ...)] lets through. *)
Definition whenTruthy {A : Type} `{Truthy A} (v : option A) : option A :=
  if truthy v then v else None.

(** [a || b] when [b] is a value. *)
Definition orElse {A : Type} `{Truthy A} (a : option A) (b : A) : A :=
  default b (whenTruthy a).

(** [a || b] when [b] may itself be [null]. *)
Definition orElseOpt {A : Type} `{Truthy A} (a b : option A) : option A :=
  if truthy a then a else b.

(** *** Numbers *)

Definition jsSub (a b : jsnum) : jsnum :=
  match a, b with
  | Some x, Some y => Some (x - y)%Z
  | _, _ => None
  end.

(** [Math.abs]. *)
Definition jsAbs (a : jsnum) : jsnum := Z.abs <$> a.

(** [a !== 0]; NaN is different from [0]. *)
Definition neqZero (a : jsnum) : bool :=
  match a with
  | Some x => negb (x =? 0)%Z
  | None => true
  end.

(** [a || b] on numbers: [0] and NaN are falsy. *)
Definition jsOr (a b : jsnum) : jsnum :=
  match a with
  | Some x => if (x =? 0)%Z then b else a
  | None => b
  end.

(** *** Sets *)

(** [s.add(x)] on the iteration order of a [Set]. *)
Definition setAdd (s : list string) (x : string) : list string :=
  if decide (x ∈ s) then s else s ++ [x].

(** [[...new Set(l)]]: first occurrences, in order. *)
Definition setOf (l : list string) : list string := fold_left setAdd l [].

(** *** Objects built in memory *)

(** The value of a decimal digit. *)
Definition digit (c : ascii) : option N :=
  let n := N_of_ascii c in
  if ((48 <=? n) && (n <=? 57))%N then Some (n - 48)%N else None.

Fixpoint digits (s : string) (acc : N) : option N :=
  match s with
  | EmptyString => Some acc
  | String c rest =>
      match digit c with
      | Some d => digits rest (acc * 10 + d)%N
      | None => None
      end
  end.

(** The array index a property name denotes: the name is the decimal
    numeral, without leading zero, of an integer below [2^32 - 1]. *)
Definition arrayIndex (k : string) : option N :=
  match k with
  | EmptyString => None
  | String "0"%char (String _ _) => None
  | _ =>
      match digits k 0 with
      | Some n => if (n <? 4294967295)%N then Some n else None
      | None => None
      end
  end.

(** A new own property named by the array index [i] goes before the first
    property that is not an array index below [i]. *)
Fixpoint insertIndexed {A : Type} (i : N) (k : string) (v : A)
    (l : list (string * A)) : list (string * A) :=
  match l with
  | [] => [(k, v)]
  | (k', v') :: l' =>
      match arrayIndex k' with
      | Some j =>
          if (j <? i)%N then (k', v') :: insertIndexed i k v l'
          else (k, v) :: l
      | None => (k, v) :: l
      end
  end.

Fixpoint ownReplace {A : Type} (k : string) (v : A) (l : list (string * A))
  : list (string * A) :=
  match l with
  | [] => []
  | (k', v') :: l' =>
      if decide (k' = k) then (k', v) :: l' else (k', v') :: ownReplace k v l'
  end.

(** Defining the own property [k] as [v]: an existing property keeps its
    place; a new one is placed as [Object.keys] will list it. *)
Definition ownSet {A : Type} (k : string) (v : A) (l : list (string * A))
  : list (string * A) :=
  if decide (k ∈ l.*1) then ownReplace k v l
  else
    match arrayIndex k with
    | Some i => insertIndexed i k v l
    | None => l ++ [(k, v)]
    end.

(** An object whose properties all hold an [A]: its own properties, and
    the object that an assignment to [__proto__] made its prototype
    ([None]: the prototype is [Object.prototype]). *)
Record obj (A : Type) : Type := mkObj {
  own : list (string * A);
  proto : option A
}.

Arguments mkObj {A} own proto.
Arguments own {A} o.
Arguments proto {A} o.

(** [{}]. *)
Definition emptyObj {A : Type} : obj A := {| own := []; proto := None |}.

(** [o[k] = v] for an object [v].  [__proto__] is an accessor of
    [Object.prototype]: unless [o] has an own property of that name, the
    assignment changes the prototype of [o] and adds no key. *)
Definition objSet {A : Type} (k : string) (v : A) (o : obj A) : obj A :=
  if decide (k = "__proto__" ∧ k ∉ (own o).*1)
  then {| own := own o; proto := Some v |}
  else {| own := ownSet k v (own o); proto := proto o |}.

(** [Object.keys(o)]. *)
Definition objKeys {A : Type} (o : obj A) : list string := (own o).*1.

(** The [A] that [o[k]] evaluates to, when it does: an own property, or
    for [__proto__] the prototype an assignment gave [o]. *)
Definition objGet {A : Type} (o : obj A) (k : string) : option A :=
  match ownGet (own o) k with
  | Some a => Some a
  | None => if decide (k = "__proto__") then proto o else None
  end.

(** *** Sorting *)

(** [cmp(x, y) > 0], [cmp(x, y) < 0] and [cmp(x, y) = 0]. *)
Definition sortsAfter {A : Type} (cmp : A -> A -> jsnum) (x y : A) : bool :=
  match cmp x y with
  | Some v => (0 <? v)%Z
  | None => false
  end.

Definition sortsBefore {A : Type} (cmp : A -> A -> jsnum) (x y : A) : bool :=
  match cmp x y with
  | Some v => (v <? 0)%Z
  | None => false
  end.

Definition sortsEqual {A : Type} (cmp : A -> A -> jsnum) (x y : A) : bool :=
  match cmp x y with
  | Some v => (v =? 0)%Z
  | None => false
  end.

(** The requirements of ECMAScript on a consistent comparator, at the
    values [a], [b], [c]: the comparison is a number and not NaN, equality
    is reflexive, symmetric and transitive, and so are "before" and
    "after". *)
Definition consistentAt {A : Type} (cmp : A -> A -> jsnum) (a b c : A) : bool :=
  bool_decide (is_Some (cmp a b))
  && sortsEqual cmp a a
  && implb (sortsEqual cmp a b) (sortsEqual cmp b a)
  && implb (sortsEqual cmp a b && sortsEqual cmp b c) (sortsEqual cmp a c)
  && implb (sortsBefore cmp a b && sortsBefore cmp b c) (sortsBefore cmp a c)
  && implb (sortsAfter cmp a b && sortsAfter cmp b c) (sortsAfter cmp a c).

Definition consistentOn {A : Type} (cmp : A -> A -> jsnum) (l : list A) : bool :=
  forallb (fun a => forallb (fun b => forallb (consistentAt cmp a b) l) l) l.

Fixpoint insertSorted {A : Type} (cmp : A -> A -> jsnum) (x : A) (l : list A)
  : list A :=
  match l with
  | [] => [x]
  | y :: l' => if sortsAfter cmp x y then y :: insertSorted cmp x l' else x :: l
  end.

(** The stable sort: elements that do not compare as "after" one another
    keep their order. *)
Fixpoint stableSort {A : Type} (cmp : A -> A -> jsnum) (l : list A) : list A :=
  match l with
  | [] => []
  | x :: l' => insertSorted cmp x (stableSort cmp l')
  end.

(** An array after [sort]: in a determined order, or in an order the
    language leaves to the implementation. *)
Inductive ordering (A : Type) : Type :=
| Ordered (l : list A)
| Unordered (l : list A).

Arguments Ordered {A} l.
Arguments Unordered {A} l.

(** The elements of the array, in the determined order or else in the
    order before the sort. *)
Definition elements {A : Type} (o : ordering A) : list A :=
  match o with
  | Ordered l => l
  | Unordered l => l
  end.

(** [a.sort(cmp)].  ECMAScript requires the sort to be stable, and fixes
    its result when [cmp] is a consistent comparator for the elements of
    [a]; otherwise the order is implementation-defined. *)
Definition arraySort {A : Type} (cmp : A -> A -> jsnum) (l : list A)
  : ordering A :=
  if consistentOn cmp l then Ordered (stableSort cmp l) else Unordered l.

End JS.

Import JS.

(** ** The platform *)

Class Node : Type := {
  (** [process.cwd()] *)
  cwd : string;
  (** [getBuildOutputDirectory(options)] *)
  BUILD_OUTPUT_DIRECTORY : string;
  (** [path.join(...segments)] *)
  path_join : list string -> string;
  (** [path.relative(from, to)] *)
  path_relative : string -> string -> string;
  (** the file store: the text of each existing path *)
  fs : string -> option string;
  (** [Buffer.byteLength(text, 'utf8')] *)
  byteLength : string -> Z;
  (** [gzSize.sync(text)] *)
  gzSize : string -> Z;
  (** [JSON.parse(text)]; [None] when it throws or yields [null] *)
  JSON_parse : string -> option doc
}.

(** [fs.existsSync(p)]. *)
Definition existsSync `{Node} (p : string) : bool :=
  match fs p with
  | Some _ => true
  | None => false
  end.

Definition nextMetaRoot `{Node} : string :=
  path_join [cwd; BUILD_OUTPUT_DIRECTORY].

(** ** Size entries *)

Record SizeEntry : Type := mkSize { raw : Z; gzip : Z }.

Definition zeroSize : SizeEntry := {| raw := 0; gzip := 0 |}.

Definition addSize (a b : SizeEntry) : SizeEntry :=
  {| raw := raw a + raw b; gzip := gzip a + gzip b |}.

Definition sizeOfPair (m : Z * Z) : SizeEntry := {| raw := m.1; gzip := m.2 |}.

(** ** SizeMeasurer and Aggregator
    ([report-bundle-size.js], lines 46-48 and 139-176) *)

(** The mutable state of a run: the cache, and the trace of the paths read
    and compressed. *)
Record Runtime : Type := mkRuntime {
  memoryCache : gmap string (Z * Z);
  reads : list string
}.

Definition initial : Runtime := {| memoryCache := ∅; reads := [] |}.

Definition getScriptSize `{Node} (scriptPath : string) (st : Runtime)
  : (Z * Z) * Runtime :=
  let p := path_join [nextMetaRoot; scriptPath] in
  match memoryCache st !! p with
  | Some (rawSize, gzipSize) => ((rawSize, gzipSize), st)
  | None =>
      match fs p with
      | None =>
          ((0, 0)%Z,
           {| memoryCache := <[p := (0, 0)%Z]> (memoryCache st);
              reads := reads st |})
      | Some textContent =>
          let rawSize := byteLength textContent in
          let gzipSize := gzSize textContent in
          ((rawSize, gzipSize),
           {| memoryCache := <[p := (rawSize, gzipSize)]> (memoryCache st);
              reads := reads st ++ [p] |})
      end
  end.

(** The reducer of [getScriptSizes]. *)
Definition addScript `{Node} (acc : SizeEntry * Runtime) (scriptPath : string)
  : SizeEntry * Runtime :=
  let '(rawSize, gzipSize, st') := getScriptSize scriptPath acc.2 in
  ({| raw := raw acc.1 + rawSize; gzip := gzip acc.1 + gzipSize |}, st').

Definition getScriptSizes `{Node} (scriptPaths : list string) (st : Runtime)
  : SizeEntry * Runtime :=
  fold_left addScript scriptPaths (zeroSize, st).

(** The state after a sequence of measurements. *)
Definition afterCalls `{Node} (calls : list string) (st : Runtime) : Runtime :=
  fold_left (fun s scriptPath => (getScriptSize scriptPath s).2) calls st.

(** What a resolved path measures to on the store, cache aside. *)
Definition measureResolved `{Node} (p : string) : Z * Z :=
  match fs p with
  | None => (0, 0)%Z
  | Some textContent => (byteLength textContent, gzSize textContent)
  end.

Definition measure `{Node} (scriptPath : string) : Z * Z :=
  measureResolved (path_join [nextMetaRoot; scriptPath]).

(** The cache agrees with the store, and a path is in the read trace at most
    once and only when it is cached. *)
Definition coherent `{Node} (st : Runtime) : Prop :=
  (∀ p v, memoryCache st !! p = Some v → v = measureResolved p) ∧
  NoDup (reads st) ∧
  (∀ p, p ∈ reads st → is_Some (memoryCache st !! p)).

(** Elementwise sum of the measurements of a list of paths. *)
Definition sumMeasured `{Node} (paths : list string) : SizeEntry :=
  foldr (fun scriptPath acc => addSize (sizeOfPair (measure scriptPath)) acc)
        zeroSize paths.

(** ** RouteResolver ([report-bundle-size.js], lines 280-294) *)

Definition exts : list string := ["tsx"; "ts"; "jsx"; "js"; "mdx"].

(** [s.replace(/^\//, '')]. *)
Definition stripLeadingSlash (s : string) : string :=
  match s with
  | String "/"%char rest => rest
  | _ => s
  end.

(** A loop [for (c of candidates) if (fs.existsSync(c)) return c]. *)
Fixpoint firstExisting `{Node} (candidates : list string) : option string :=
  match candidates with
  | [] => None
  | candidate :: rest =>
      if existsSync candidate then Some candidate else firstExisting rest
  end.

Definition resolveSourceFile `{Node} (sourceLike : string) : option string :=
  let rel := path_join ["app"; stripLeadingSlash sourceLike] in
  match firstExisting
          (map (fun ext => path_join [cwd; rel +:+ "." +:+ ext]) exts) with
  | Some candidate => Some (path_relative cwd candidate)
  | None =>
      match firstExisting
              (map (fun ext => path_join [cwd; rel +:+ "/route." +:+ ext]) exts)
      with
      | Some candidate => Some (path_relative cwd candidate)
      | None => None
      end
  end.

(** The ten candidates in the order the specification gives them. *)
Definition candidatesInOrder `{Node} (sourceLike : string) : list string :=
  let rel := path_join ["app"; stripLeadingSlash sourceLike] in
  [ path_join [cwd; rel +:+ ".tsx"];
    path_join [cwd; rel +:+ ".ts"];
    path_join [cwd; rel +:+ ".jsx"];
    path_join [cwd; rel +:+ ".js"];
    path_join [cwd; rel +:+ ".mdx"];
    path_join [cwd; rel +:+ "/route.tsx"];
    path_join [cwd; rel +:+ "/route.ts"];
    path_join [cwd; rel +:+ "/route.jsx"];
    path_join [cwd; rel +:+ "/route.js"];
    path_join [cwd; rel +:+ "/route.mdx"] ].

(** ** Snapshot of the current run ([outputJson], lines 58-118) *)

Record RouteInfo : Type := mkRoute {
  source : string;
  sourceFile : option string
}.

Record Output : Type := mkOutput {
  __global : SizeEntry;
  __pages : obj SizeEntry;
  __files : obj SizeEntry;
  __routes : obj RouteInfo;
  __rootMainFiles : list string
}.

(** The parsed manifests: [buildMeta?.rootMainFiles || []], the entries of
    [appDirMeta?.pages || {}] and those of [appPathRoutes], as
    [Object.entries] lists them.  Every page maps to an array of paths, on
    which the guard [scriptPaths || []] is the identity. *)
Record Manifests : Type := mkManifests {
  globalAppDirBundle : list string;
  appDirPages : list (string * list string);
  appPathRoutes : list (string * string)
}.

(** The reducer of [allAppDirSizes]: one page entry. *)
Definition pageStep `{Node} (globalFiles : list string)
    (acc : obj SizeEntry * Runtime)
    (entry : string * list string) : obj SizeEntry * Runtime :=
  let '(scriptSizes, st') :=
    getScriptSizes
      (filter (fun scriptPath => scriptPath ∉ globalFiles) entry.2) acc.2 in
  (objSet entry.1 scriptSizes acc.1, st').

Definition allAppDirSizes `{Node} (m : Manifests) (st : Runtime)
  : obj SizeEntry * Runtime :=
  fold_left (pageStep (globalAppDirBundle m)) (appDirPages m) (emptyObj, st).

(** [Object.values(appDirPages).flat()] after the global files, as a set. *)
Definition allFiles (m : Manifests) : list string :=
  setOf (globalAppDirBundle m ++ concat (appDirPages m).*2).

(** The body of the loop filling [fileSizes]. *)
Definition fileSizeStep `{Node} (acc : obj SizeEntry * Runtime)
    (file : string) : obj SizeEntry * Runtime :=
  let '(rawSize, gzipSize, st') := getScriptSize file acc.2 in
  (objSet file {| raw := rawSize; gzip := gzipSize |} acc.1, st').

Definition fileSizes `{Node} (m : Manifests) (st : Runtime)
  : obj SizeEntry * Runtime :=
  fold_left fileSizeStep (allFiles m) (emptyObj, st).

Definition routeToSource `{Node} (m : Manifests) : obj RouteInfo :=
  fold_left
    (fun acc entry =>
       objSet entry.2
         {| source := entry.1; sourceFile := resolveSourceFile entry.1 |} acc)
    (appPathRoutes m) emptyObj.

(** ** DiffEngine ([logDiffs], lines 179-273) *)

(** [{ raw: dr, gzip: dg }]. *)
Record Delta : Type := mkDelta { d_raw : jsnum; d_gzip : jsnum }.

Record ChangedFile : Type := mkChanged {
  cf_file : string;
  cf_prev : found entry;
  cf_curr : found entry;
  cf_delta : Delta
}.

Record NewFile : Type := mkNew { nf_file : string; nf_curr : found entry }.

Record RemovedFile : Type := mkRemoved {
  rf_file : string;
  rf_prev : found entry
}.

Record PageChange : Type := mkPageChange {
  pc_page : string;
  pc_prev : found entry;
  pc_curr : found entry;
  pc_delta : Delta
}.

Record DiffResult : Type := mkDiff {
  deltaGlobal : Delta;
  changedFiles : list ChangedFile;
  newFiles : list NewFile;
  removedFiles : list RemovedFile;
  pageChanges : list PageChange;
  newRoutes : list string;
  removedRoutes : list string
}.

(** A size entry of the snapshot as the value a lookup finds, and as it
    reads back from a persisted document: under a key of a part, and as a
    part of its own. *)
Definition sizeEntry (s : SizeEntry) : entry :=
  EObj (Some (raw s)) (Some (gzip s)).

Definition sizePart (s : SizeEntry) : part :=
  Obj [("raw", ENum (raw s)); ("gzip", ENum (gzip s))].

(** The literal [{ raw: 0, gzip: 0 }]. *)
Definition zeroEntry : entry := EObj (Some 0%Z) (Some 0%Z).
Definition zeroPart : part := Obj [("raw", ENum 0); ("gzip", ENum 0)].

(** [o[k]] for a computed key [k] on an object of size entries: an own
    entry; or else, through the prototype [v] that [o.__proto__ = v]
    installed, the numbers [v.raw] and [v.gzip]; or else a member of
    [Object.prototype], whose accessor [__proto__] returns [v]. *)
Definition sizeLookup (o : obj SizeEntry) (k : string) : option (found entry) :=
  match ownGet (own o) k with
  | Some s => Some (Val (sizeEntry s))
  | None =>
      match proto o with
      | Some v =>
          if decide (k = "raw") then Some (Val (ENum (raw v)))
          else if decide (k = "gzip") then Some (Val (ENum (gzip v)))
          else if decide (k = "__proto__") then Some (Val (sizeEntry v))
          else if decide (k ∈ objectPrototype) then Some Builtin
          else None
      | None => if decide (k ∈ objectPrototype) then Some Builtin else None
      end
  end.

(** [c.raw - p.raw] and [c.gzip - p.gzip] for two looked-up values. *)
Definition sizeDelta (c p : found entry) : Delta :=
  {| d_raw := jsSub (rawOf c) (rawOf p);
     d_gzip := jsSub (gzipOf c) (gzipOf p) |}.

(** [currGlobal.raw - prevGlobal.raw] and
    [currGlobal.gzip - prevGlobal.gzip]. *)
Definition globalDelta (currGlobal : SizeEntry) (prevGlobal : part) : Delta :=
  {| d_raw := jsSub (Some (raw currGlobal)) (numberOf (read prevGlobal "raw"));
     d_gzip :=
       jsSub (Some (gzip currGlobal)) (numberOf (read prevGlobal "gzip")) |}.

(** [dr !== 0 || dg !== 0]. *)
Definition nonZero (d : Delta) : bool := neqZero (d_raw d) || neqZero (d_gzip d).

(** The body of the loop over [fileKeys] (lines 197-211). *)
Definition fileStep (prevFiles : part) (currFiles : obj SizeEntry)
    (acc : list ChangedFile * list NewFile * list RemovedFile) (key : string)
  : list ChangedFile * list NewFile * list RemovedFile :=
  let '(changed, added, removed) := acc in
  match whenTruthy (lookup prevFiles key),
        whenTruthy (sizeLookup currFiles key) with
  | Some p, None =>
      (changed, added, removed ++ [{| rf_file := key; rf_prev := p |}])
  | None, Some c =>
      (changed, added ++ [{| nf_file := key; nf_curr := c |}], removed)
  | Some p, Some c =>
      let delta := sizeDelta c p in
      if nonZero delta
      then (changed ++ [{| cf_file := key; cf_prev := p; cf_curr := c;
                           cf_delta := delta |}], added, removed)
      else acc
  | None, None => acc
  end.

(** The body of the loop over [pageKeys] (lines 230-238). *)
Definition pageChangeStep (prevPages : part) (currPages : obj SizeEntry)
    (acc : list PageChange) (key : string) : list PageChange :=
  let p := orElse (lookup prevPages key) (Val zeroEntry) in
  let c := orElse (sizeLookup currPages key) (Val zeroEntry) in
  let delta := sizeDelta c p in
  if nonZero delta
  then acc ++ [{| pc_page := key; pc_prev := p; pc_curr := c;
                  pc_delta := delta |}]
  else acc.

(** [prev] is [null] or the parsed previous analysis; [curr] is
    [outputJson], whose five fields are always objects, so that the guards
    [curr.__x || ...] never take their right-hand side.  The result holds
    the global delta and the lists the function prints, in printing
    order. *)
Definition logDiffs (prev : option doc) (curr : Output) : DiffResult :=
  let prevGlobal := orElse (optRead prev "__global") zeroPart in
  let currGlobal := __global curr in
  let prevFiles := orElse (optRead prev "__files") (Obj []) in
  let currFiles := __files curr in
  let fileKeys := setOf (keys prevFiles ++ objKeys currFiles) in
  let filePass :=
    fold_left (fileStep prevFiles currFiles) fileKeys ([], [], []) in
  let prevPages := orElse (optRead prev "__pages") (Obj []) in
  let currPages := __pages curr in
  let pageKeys := setOf (keys prevPages ++ objKeys currPages) in
  let prevRoutes := orElse (optRead prev "__routes") (Obj []) in
  let currRoutes := __routes curr in
  let prevRouteKeys := setOf (keys prevRoutes) in
  let currRouteKeys := setOf (objKeys currRoutes) in
  {| deltaGlobal := globalDelta currGlobal prevGlobal;
     changedFiles := filePass.1.1;
     newFiles := filePass.1.2;
     removedFiles := filePass.2;
     pageChanges := fold_left (pageChangeStep prevPages currPages) pageKeys [];
     newRoutes := filter (fun r => r ∉ prevRouteKeys) currRouteKeys;
     removedRoutes := filter (fun r => r ∉ currRouteKeys) prevRouteKeys |}.

(** What one key contributes to each list of the file pass and of the page
    pass: the closed forms of the two loops. *)
Definition changedAt (prevFiles : part) (currFiles : obj SizeEntry)
    (key : string) : option ChangedFile :=
  match whenTruthy (lookup prevFiles key),
        whenTruthy (sizeLookup currFiles key) with
  | Some p, Some c =>
      if nonZero (sizeDelta c p)
      then Some {| cf_file := key; cf_prev := p; cf_curr := c;
                   cf_delta := sizeDelta c p |}
      else None
  | _, _ => None
  end.

Definition newAt (prevFiles : part) (currFiles : obj SizeEntry)
    (key : string) : option NewFile :=
  match whenTruthy (lookup prevFiles key),
        whenTruthy (sizeLookup currFiles key) with
  | None, Some c => Some {| nf_file := key; nf_curr := c |}
  | _, _ => None
  end.

Definition removedAt (prevFiles : part) (currFiles : obj SizeEntry)
    (key : string) : option RemovedFile :=
  match whenTruthy (lookup prevFiles key),
        whenTruthy (sizeLookup currFiles key) with
  | Some p, None => Some {| rf_file := key; rf_prev := p |}
  | _, _ => None
  end.

Definition pageChangeAt (prevPages : part) (currPages : obj SizeEntry)
    (key : string) : option PageChange :=
  let p := orElse (lookup prevPages key) (Val zeroEntry) in
  let c := orElse (sizeLookup currPages key) (Val zeroEntry) in
  if nonZero (sizeDelta c p)
  then Some {| pc_page := key; pc_prev := p; pc_curr := c;
               pc_delta := sizeDelta c p |}
  else None.

(** Every current file as a new file, and every current page measured
    against zero. *)
Definition allNew (currFiles : obj SizeEntry) : list NewFile :=
  omap (fun key => (fun s => mkNew key (Val (sizeEntry s)))
                     <$> ownGet (own currFiles) key)
       (setOf (objKeys currFiles)).

Definition againstZero (key : string) (c : SizeEntry) : option PageChange :=
  if nonZero (sizeDelta (Val (sizeEntry c)) (Val zeroEntry))
  then Some {| pc_page := key; pc_prev := Val zeroEntry;
               pc_curr := Val (sizeEntry c);
               pc_delta := {| d_raw := Some (raw c - 0)%Z;
                              d_gzip := Some (gzip c - 0)%Z |} |}
  else None.

Definition pagesAgainstZero (currPages : obj SizeEntry) : list PageChange :=
  omap (fun key => ownGet (own currPages) key ≫= againstZero key)
       (setOf (objKeys currPages)).

(** A key which, looked up in an object that does not hold it, finds
    nothing: it names no member of [Object.prototype]. *)
Definition ordinary (k : string) : Prop := k ∉ objectPrototype.

#[global] Instance ordinary_dec (k : string) : Decision (ordinary k).
Proof. unfold ordinary. apply _. Defined.


(** A file map read back from a persisted document: every key holds a size
    entry. *)
Definition parsedEntries (sizes : list (string * SizeEntry)) : part :=
  Obj (prod_map id sizeEntry <$> sizes).

(** The scenario of the specification: [a.js] only in the previous
    snapshot, [b.js] only in the current one. *)
Definition scenarioPrevious : option doc :=
  Some (Obj [("__files",
              parsedEntries [("a.js", {| raw := 200; gzip := 80 |})])]).

Definition scenarioCurrent : Output :=
  {| __global := zeroSize;
     __pages := emptyObj;
     __files := {| own := [("b.js", {| raw := 300; gzip := 120 |})];
                   proto := None |};
     __routes := emptyObj;
     __rootMainFiles := [] |}.

(** A snapshot with a file named [constructor] and a page named
    [toString]. *)
Definition inheritedCurrent : Output :=
  {| __global := zeroSize;
     __pages := {| own := [("toString", {| raw := 7; gzip := 3 |})];
                   proto := None |};
     __files := {| own := [("constructor", {| raw := 300; gzip := 120 |})];
                   proto := None |};
     __routes := emptyObj;
     __rootMainFiles := [] |}.

(** ** The run ([report-bundle-size.js], lines 58-132) *)

(** [{ __global: globalAppDirBundleSizes, ...allAppDirSizes }]: the spread
    defines the own properties of the page map, in their order, on the new
    object. *)
Definition compatJson (globalAppDirBundleSizes : SizeEntry)
    (pages : obj SizeEntry) : obj SizeEntry :=
  {| own := fold_left (fun acc entry => ownSet entry.1 entry.2 acc) (own pages)
                      [("__global", globalAppDirBundleSizes)];
     proto := None |}.

(** [JSON.parse(JSON.stringify(o))] for an object of size entries: its own
    properties, in order. *)
Definition parsedSizes (o : obj SizeEntry) : doc :=
  Obj (prod_map id sizePart <$> own o).

Definition analysisPath `{Node} : string :=
  path_join [path_join [nextMetaRoot; "analyze/"]; "__bundle_analysis.json"].

(** [previousAnalysis] (lines 90-97). *)
Definition previousAnalysis `{Node} : option doc :=
  match fs analysisPath with
  | Some text => JSON_parse text
  | None => None
  end.

Record Run : Type := mkRun {
  outputJson : Output;
  diffs : DiffResult;
  (** the document written at [analysisPath] *)
  compatWritten : obj SizeEntry;
  finalState : Runtime
}.

Definition report `{Node} (m : Manifests) : Run :=
  let globalRun := getScriptSizes (globalAppDirBundle m) initial in
  let globalAppDirBundleSizes := globalRun.1 in
  let pagesRun := allAppDirSizes m globalRun.2 in
  let filesRun := fileSizes m pagesRun.2 in
  let out :=
    {| __global := globalAppDirBundleSizes;
       __pages := pagesRun.1;
       __files := filesRun.1;
       __routes := routeToSource m;
       __rootMainFiles := globalAppDirBundle m |} in
  {| outputJson := out;
     diffs := logDiffs previousAnalysis out;
     compatWritten := compatJson globalAppDirBundleSizes pagesRun.1;
     finalState := filesRun.2 |}.

(** The diff of [curr] against the compat document [doc], read back as the
    previous analysis, finds no detail in it: no [__files], [__pages] or
    [__routes] key, hence an empty previous file map with every current file
    new, a zero total for every previous page, and an empty previous route
    set with every current route new. *)
Definition readsNoDetail (doc : obj SizeEntry) (curr : Output) : Prop :=
  let prev := Some (parsedSizes doc) in
  ("__files" ∉ objKeys doc) ∧ ("__pages" ∉ objKeys doc) ∧
  ("__routes" ∉ objKeys doc) ∧
  orElse (optRead prev "__files") (Obj []) = Obj [] ∧
  newFiles (logDiffs prev curr) = allNew (__files curr) ∧
  (∀ key,
     key ∈ objKeys (__pages curr) →
     orElse (lookup (orElse (optRead prev "__pages") (Obj [])) key)
            (Val zeroEntry)
     = Val zeroEntry) ∧
  orElse (optRead prev "__routes") (Obj []) = Obj [] ∧
  newRoutes (logDiffs prev curr) = setOf (objKeys (__routes curr)).

(** ** The review-comment script ([append-extended-bundle-comment.js]) *)

Module Comment.

(** [{ file, raw, gzip }] of the added and removed rows; [None] is
    [undefined]. *)
Record Entry : Type := mkEntry {
  e_file : string;
  e_raw : option Z;
  e_gzip : option Z
}.

(** [{ file, raw, gzip, dRaw, dGzip }] of the changed rows. *)
Record ChangedRow : Type := mkRow {
  row_file : string;
  row_raw : option Z;
  row_gzip : option Z;
  dRaw : jsnum;
  dGzip : jsnum
}.

Definition analyzeDir `{Node} : string := path_join [cwd; ".next"; "analyze"].
Definition currPrimaryPath `{Node} : string :=
  path_join [analyzeDir; "__bundle_analysis.json"].
Definition currExtendedPath `{Node} : string :=
  path_join [analyzeDir; "__bundle_analysis_extended.json"].
Definition baseDir `{Node} : string := path_join [analyzeDir; "base"; "bundle"].
Definition basePrimaryPath `{Node} : string :=
  path_join [baseDir; "__bundle_analysis.json"].
Definition baseExtendedPath `{Node} : string :=
  path_join [baseDir; "__bundle_analysis_extended.json"].

(** [null] when the file is missing or does not parse. *)
Definition readJsonSafe `{Node} (p : string) : option doc :=
  match fs p with
  | None => None
  | Some text => JSON_parse text
  end.

(** The body of the loop over [keys] (lines 44-58). *)
Definition tableStep (currFiles baseFiles : part)
    (acc : list ChangedRow * list Entry * list Entry) (k : string)
  : list ChangedRow * list Entry * list Entry :=
  let '(changed, added, removed) := acc in
  match whenTruthy (lookup currFiles k), whenTruthy (lookup baseFiles k) with
  | Some c, None =>
      (changed,
       added ++ [{| e_file := k; e_raw := rawOf c; e_gzip := gzipOf c |}],
       removed)
  | None, Some b =>
      (changed, added,
       removed ++ [{| e_file := k; e_raw := rawOf b; e_gzip := gzipOf b |}])
  | Some c, Some b =>
      let dRaw := jsSub (rawOf c) (rawOf b) in
      let dGzip := jsSub (gzipOf c) (gzipOf b) in
      if neqZero dRaw || neqZero dGzip
      then (changed ++ [{| row_file := k; row_raw := rawOf c;
                           row_gzip := gzipOf c;
                           dRaw := dRaw; dGzip := dGzip |}], added, removed)
      else acc
  | None, None => acc
  end.

(** The comparator of [changed.sort] (line 78). *)
Definition compareChanged (a b : ChangedRow) : jsnum :=
  jsOr (jsSub (jsAbs (dGzip b)) (jsAbs (dGzip a)))
       (jsSub (jsAbs (dRaw b)) (jsAbs (dRaw a))).

(** The three tables, in the order their rows are rendered. *)
Record Tables : Type := mkTables {
  changed : ordering ChangedRow;
  added : list Entry;
  removed : list Entry
}.

(** The loop over [keys], from empty lists. *)
Definition classify (currFiles baseFiles : part)
  : list ChangedRow * list Entry * list Entry :=
  fold_left (tableStep currFiles baseFiles)
            (setOf (keys currFiles ++ keys baseFiles)) ([], [], []).

Definition tables (curr : doc) (base : option doc) : Tables :=
  let currFiles := orElse (read curr "__files") (Obj []) in
  let baseFiles := orElse (optRead (whenTruthy base) "__files") (Obj []) in
  let pass := classify currFiles baseFiles in
  {| changed := arraySort compareChanged pass.1.1;
     added := pass.1.2;
     removed := pass.2 |}.


Definition curr `{Node} : option doc :=
  orElseOpt (readJsonSafe currPrimaryPath) (readJsonSafe currExtendedPath).

Definition base `{Node} : option doc :=
  orElseOpt (readJsonSafe basePrimaryPath) (readJsonSafe baseExtendedPath).


End Comment.

(** ** Orderings of a changed-files listing *)

(** The magnitude [|x|] of a delta that is a number. *)
Definition magnitude (x : jsnum) : Z := default 0%Z (jsAbs x).

(** What a listing is ordered by: [|Δgzip|], [|Δraw|] and the file key. *)
Definition SortKey : Type := Z * Z * string.

Definition keyOfRow (r : Comment.ChangedRow) : SortKey :=
  (magnitude (Comment.dGzip r), magnitude (Comment.dRaw r), Comment.row_file r).






(** The rows of a listing whose magnitudes are [(g, r)]. *)
Definition tiesAt (g r : Z) (row : Comment.ChangedRow) : Prop :=
  (keyOfRow row).1 = (g, r).

#[global] Instance tiesAt_dec (g r : Z) (row : Comment.ChangedRow)
  : Decision (tiesAt g r row).
Proof. unfold tiesAt. apply _. Defined.

(** Three files changed by the same amounts, discovered in the order
    [b.js], [a.js], [c.js]. *)
Definition tieCurrent : doc :=
  Obj [("__files",
        parsedEntries [("b.js", {| raw := 110; gzip := 60 |});
                       ("a.js", {| raw := 110; gzip := 60 |});
                       ("c.js", {| raw := 110; gzip := 60 |})])].





(** ** A concrete platform for evaluating the definitions *)

Definition demoStore (p : string) : option string :=
  if decide (p = "/w/.next/a.js") then Some "aaaa"
  else if decide (p = "/w/.next/b.js") then Some "bb"
  else if decide (p = "/w/app/about/page.ts") then Some "export"
  else if decide (p = "/w/app/about/page.js") then Some "stale"
  else if decide (p = "/w/app/api/route.js") then Some "handler"
  else if decide (p = "/w/.next/analyze/__bundle_analysis.json")
  then Some "primary"
  else if decide (p = "/w/.next/analyze/__bundle_analysis_extended.json")
  then Some "extended"
  else None.

Definition demoParse (text : string) : option doc :=
  if decide (text = "primary")
  then Some (Obj [("__global", sizePart {| raw := 4; gzip := 2 |});
                  ("/page", sizePart {| raw := 2; gzip := 1 |})])
  else if decide (text = "extended")
  then Some (Obj [("__global", sizePart {| raw := 4; gzip := 2 |});
                  ("__files",
                   parsedEntries [("a.js", {| raw := 4; gzip := 2 |})])])
  else None.

(** A join that drops a leading [./] of a segment, as [path.join] does. *)
Definition dropDotSlash (segment : string) : string :=
  match segment with
  | String "."%char (String "/"%char rest) => rest
  | _ => segment
  end.

Definition demoJoin (segments : list string) : string :=
  String.concat "/" (dropDotSlash <$> segments).

Definition demoNode : Node :=
  {| cwd := "/w";
     BUILD_OUTPUT_DIRECTORY := ".next";
     path_join := demoJoin;
     path_relative := fun from to => to;
     fs := demoStore;
     byteLength := fun text => Z.of_nat (String.length text);
     gzSize := fun text => Z.div (Z.of_nat (String.length text)) 2;
     JSON_parse := demoParse |}.

Definition demoManifests : Manifests :=
  {| globalAppDirBundle := ["a.js"];
     appDirPages := [("/page", ["a.js"; "b.js"; "a.js"; "c.js"]);
                     ("/about/page", ["b.js"])];
     appPathRoutes := [("/about/page", "/about"); ("/api/route", "/api")] |}.

(** Manifests with a page whose identifier is [__files]. *)
Definition reservedManifests : Manifests :=
  {| globalAppDirBundle := [];
     appDirPages := [("__files", ["a.js"])];
     appPathRoutes := [] |}.

(** Manifests whose page identifiers and file paths include an array
    index and [__proto__]. *)
Definition unusualManifests : Manifests :=
  {| globalAppDirBundle := ["a.js"];
     appDirPages := [("2", []); ("10", ["__proto__"]); ("/page", ["b.js"; "7"]);
                     ("__proto__", ["a.js"; "b.js"])];
     appPathRoutes := [("/about/page", "/about"); ("/x", "__proto__");
                       ("/y", "0")] |}.




(** ** Further parts of the programs *)

(** [sign(n)] of both scripts: [`${n}`] is the decimal numeral of an
    integer and ["NaN"] for NaN. *)
Definition sign (n : jsnum) : string :=
  match n with
  | None => "NaN"
  | Some z =>
      if (z =? 0)%Z then "0"
      else if (0 <? z)%Z then "+" +:+ pretty z else pretty z
  end.

(** [info.sourceFile || info.source]: an empty string is falsy. *)
Definition displaySource (info : RouteInfo) : string :=
  match sourceFile info with
  | Some file => if decide (file = "") then source info else file
  | None => source info
  end.

(** A line [uses f raw=... gzip=...]; [None] is [undefined]. *)
Record Use : Type := mkUse {
  u_file : string;
  u_raw : option Z;
  u_gzip : option Z
}.

(** The lines printed for one new route (lines 255-264): the route, its
    source, and every root file with [currFiles[f] || { raw: 0, gzip: 0 }]. *)
Record NewPageReport : Type := mkNewPage {
  np_route : string;
  np_source : string;
  np_uses : list Use
}.

(** The loop over [newRoutes] (lines 253-265).  [currRoutes[r]] is a route
    entry for every [r] of [newRoutes], which are keys of [currRoutes]. *)
Definition newPageReports (curr : Output) (routes : list string)
  : list NewPageReport :=
  omap (fun r =>
          (fun info =>
             {| np_route := r;
                np_source := displaySource info;
                np_uses :=
                  (fun f =>
                     let sz := orElse (sizeLookup (__files curr) f)
                                      (Val zeroEntry) in
                     {| u_file := f; u_raw := rawOf sz; u_gzip := gzipOf sz |})
                    <$> __rootMainFiles curr |})
            <$> objGet (__routes curr) r)
       routes.

(** The sum of a list of sizes. *)
Definition totalSize (sizes : list SizeEntry) : SizeEntry :=
  foldr addSize zeroSize sizes.

(** The sizes a report lists, when each line shows two numbers. *)
Definition useSize (u : Use) : option SizeEntry :=
  match u_raw u, u_gzip u with
  | Some rawSize, Some gzipSize => Some {| raw := rawSize; gzip := gzipSize |}
  | _, _ => None
  end.

Fixpoint usedSizes (uses : list Use) : option (list SizeEntry) :=
  match uses with
  | [] => Some []
  | u :: rest =>
      match useSize u, usedSizes rest with
      | Some size, Some sizes => Some (size :: sizes)
      | _, _ => None
      end
  end.

(** What one key contributes to each table of the review-comment script:
    the closed form of the loop of lines 44-58. *)
Definition changedRowAt (currFiles baseFiles : part) (k : string)
  : option Comment.ChangedRow :=
  match whenTruthy (lookup currFiles k), whenTruthy (lookup baseFiles k) with
  | Some c, Some b =>
      let dRaw := jsSub (rawOf c) (rawOf b) in
      let dGzip := jsSub (gzipOf c) (gzipOf b) in
      if neqZero dRaw || neqZero dGzip
      then Some {| Comment.row_file := k; Comment.row_raw := rawOf c;
                   Comment.row_gzip := gzipOf c;
                   Comment.dRaw := dRaw; Comment.dGzip := dGzip |}
      else None
  | _, _ => None
  end.

Definition addedAt (currFiles baseFiles : part) (k : string)
  : option Comment.Entry :=
  match whenTruthy (lookup currFiles k), whenTruthy (lookup baseFiles k) with
  | Some c, None =>
      Some {| Comment.e_file := k; Comment.e_raw := rawOf c;
              Comment.e_gzip := gzipOf c |}
  | _, _ => None
  end.

Definition removedRowAt (currFiles baseFiles : part) (k : string)
  : option Comment.Entry :=
  match whenTruthy (lookup currFiles k), whenTruthy (lookup baseFiles k) with
  | None, Some b =>
      Some {| Comment.e_file := k; Comment.e_raw := rawOf b;
              Comment.e_gzip := gzipOf b |}
  | _, _ => None
  end.

(** A property name that [Object.keys] lists in creation order, and that
    an assignment stores as an own property: not an array index, and not
    [__proto__]. *)
Definition plainKey (k : string) : Prop :=
  arrayIndex k = None ∧ k ≠ "__proto__".

(** ** The manifest-compatibility script
    (the second program of [append-extended-bundle-comment.js], from its
    second [#!/usr/bin/env node] line on) *)

Module Shim.

(** What a path of the mutable file store holds. *)
Inductive Entry : Type :=
| Dir
| File (text : string).

(** The store and the lines written by [console.log]. *)
Record World : Type := mkWorld {
  store : gmap string Entry;
  logged : list string
}.

Definition nextDir `{Node} : string := path_join [cwd; ".next"].
Definition serverDir `{Node} : string := path_join [nextDir; "server"].
Definition reactLoadablePath `{Node} : string :=
  path_join [nextDir; "react-loadable-manifest.json"].
Definition rootPagesManifest `{Node} : string :=
  path_join [nextDir; "pages-manifest.json"].
Definition serverPagesManifest `{Node} : string :=
  path_join [serverDir; "pages-manifest.json"].

(** [fs.existsSync(p)] on the mutable store. *)
Definition present (s : gmap string Entry) (p : string) : bool :=
  bool_decide (is_Some (s !! p)).

(** [fs.writeFileSync(p, text)] on a path that does not exist: the new
    store, or [None] when the call throws because [p] cannot be written. *)
Definition writeFileSync (writable : string -> bool)
    (p text : string) (s : gmap string Entry) : option (gmap string Entry) :=
  if writable p then Some (<[p := File text]> s) else None.

(** [fs.copyFileSync(src, dest)]: throws when [src] is not a file or [dest]
    cannot be written. *)
Definition copyFileSync (writable : string -> bool)
    (src dest : string) (s : gmap string Entry) : option (gmap string Entry) :=
  match s !! src with
  | Some (File text) =>
      if writable dest then Some (<[dest := File text]> s) else None
  | _ => None
  end.

(** Step 1: create an empty [react-loadable-manifest.json] if missing; a
    failure is swallowed by [try { } catch {}]. *)
Definition ensureReactLoadable `{Node} (writable : string -> bool) (w : World)
  : World :=
  if present (store w) reactLoadablePath then w
  else
    match writeFileSync writable reactLoadablePath "{}" (store w) with
    | Some s' =>
        {| store := s';
           logged := logged w
                     ++ ["Created compat .next/react-loadable-manifest.json"] |}
    | None => w
    end.

(** Step 2: copy [server/pages-manifest.json] to the root if the root one
    is missing. *)
Definition ensurePagesManifest `{Node} (writable : string -> bool) (w : World)
  : World :=
  if negb (present (store w) rootPagesManifest)
     && present (store w) serverPagesManifest
  then
    match copyFileSync writable serverPagesManifest rootPagesManifest (store w)
    with
    | Some s' =>
        {| store := s';
           logged :=
             logged w
             ++ ["Copied server/pages-manifest.json to root .next/pages-manifest.json"] |}
    | None => w
    end
  else w.

(** The script: [process.exit(0)] at once when [.next] does not exist. *)
Definition run `{Node} (writable : string -> bool) (w : World) : World :=
  if negb (present (store w) nextDir) then w
  else ensurePagesManifest writable (ensureReactLoadable writable w).

End Shim.

(** A store with a build directory and a server pages manifest. *)
Definition demoWorld : Shim.World :=
  {| Shim.store :=
       {[ "/w/.next" := Shim.Dir;
          "/w/.next/server" := Shim.Dir;
          "/w/.next/server/pages-manifest.json" := Shim.File "{pages}" ]};
     Shim.logged := [] |}.

(** Manifests in which two sources lead to the same route. *)
Definition sharedRouteManifests : Manifests :=
  {| globalAppDirBundle := ["a.js"; "a.js"];
     appDirPages := [("/page", ["b.js"])];
     appPathRoutes := [("/about/page", "/about"); ("/api", "/about")] |}.

(** A platform for a later run, which finds at [analysisPath] the compat
    document written by the run of [demoNode] on [demoManifests]. *)
Definition laterNode : Node :=
  {| cwd := "/w";
     BUILD_OUTPUT_DIRECTORY := ".next";
     path_join := demoJoin;
     path_relative := fun from to => to;
     fs := fun p => if decide (p = @analysisPath demoNode)
                    then Some "previous" else demoStore p;
     byteLength := fun text => (Z.of_nat (String.length text) + 1)%Z;
     gzSize := fun text => Z.div (Z.of_nat (String.length text)) 2;
     JSON_parse := fun text =>
       if decide (text = "previous")
       then Some (parsedSizes (compatWritten (@report demoNode demoManifests)))
       else None |}.




(** * Part II: properties *)

(** ** Own properties, objects and sets *)

Section OwnFacts.
Context {A : Type}.
Implicit Types (l : list (string * A)) (k : string) (v : A).

Lemma ownGet_None l k : ownGet l k = None ↔ k ∉ l.*1.
Proof.
  induction l as [|[k' v'] l IH]; csimpl.
  - split; [intros _; apply not_elem_of_nil | done].
  - case_decide; rewrite not_elem_of_cons.
    + split; [done | intros [Hne _]; congruence].
    + rewrite IH. split; [intros ?; split; [congruence | done] | tauto].
Qed.

Lemma ownGet_is_Some l k : is_Some (ownGet l k) ↔ k ∈ l.*1.
Proof.
  rewrite <- not_eq_None_Some, ownGet_None.
  split; [apply dec_stable | auto].
Qed.

Lemma ownGet_elem l k v : ownGet l k = Some v → (k, v) ∈ l.
Proof.
  induction l as [|[k' v'] l IH]; simpl; [done|].
  destruct (decide (k' = k)) as [->|Hne].
  - intros [= ->]. left.
  - intros Hget. right. by apply IH.
Qed.

Lemma ownGet_NoDup l k v : NoDup l.*1 → (k, v) ∈ l → ownGet l k = Some v.
Proof.
  induction l as [|[k' v'] l IH]; csimpl; intros Hnd Hin.
  { by apply elem_of_nil in Hin. }
  apply NoDup_cons in Hnd as [Hfresh Hnd].
  apply elem_of_cons in Hin as [Heq|Hin].
  - simplify_eq. by rewrite decide_True.
  - rewrite decide_False; [by apply IH|].
    intros ->. apply Hfresh. apply list_elem_of_fmap. by exists (k, v).
Qed.

Lemma ownReplace_keys k v l : (ownReplace k v l).*1 = l.*1.
Proof.
  induction l as [|[k' v'] l IH]; csimpl; [done|].
  case_decide; csimpl; [done | by rewrite IH].
Qed.

Lemma ownGet_ownReplace_eq k v l :
  k ∈ l.*1 → ownGet (ownReplace k v l) k = Some v.
Proof.
  induction l as [|[k' v'] l IH]; csimpl; intros Hin.
  { by apply elem_of_nil in Hin. }
  destruct (decide (k' = k)) as [->|Hne]; simpl.
  - by rewrite decide_True.
  - rewrite decide_False by done. apply IH.
    apply elem_of_cons in Hin as [?|?]; [congruence | done].
Qed.

Lemma ownGet_ownReplace_ne k k' v l :
  k ≠ k' → ownGet (ownReplace k v l) k' = ownGet l k'.
Proof.
  intros Hne. induction l as [|[k0 v0] l IH]; simpl; [done|].
  destruct (decide (k0 = k)) as [->|Hne0]; simpl.
  - by rewrite !decide_False.
  - case_decide; [done | apply IH].
Qed.

Lemma ownGet_insertIndexed_eq (i : N) k v l :
  k ∉ l.*1 → ownGet (insertIndexed i k v l) k = Some v.
Proof.
  induction l as [|[k' v'] l IH]; csimpl; intros Hout.
  { by rewrite decide_True. }
  apply not_elem_of_cons in Hout as [Hne Hout].
  destruct (arrayIndex k') as [j|]; [destruct (j <? i)%N|]; simpl.
  - rewrite decide_False by done. by apply IH.
  - by rewrite decide_True.
  - by rewrite decide_True.
Qed.

Lemma ownGet_insertIndexed_ne (i : N) k k' v l :
  k ≠ k' → ownGet (insertIndexed i k v l) k' = ownGet l k'.
Proof.
  intros Hne. induction l as [|[k0 v0] l IH]; simpl.
  { by rewrite decide_False. }
  destruct (arrayIndex k0) as [j|]; [destruct (j <? i)%N|]; simpl.
  - case_decide; [done | apply IH].
  - by rewrite (decide_False (P := k = k')).
  - by rewrite (decide_False (P := k = k')).
Qed.

Lemma insertIndexed_keys (i : N) k v l :
  (insertIndexed i k v l).*1 ≡ₚ k :: l.*1.
Proof.
  induction l as [|[k' v'] l IH]; csimpl; [done|].
  destruct (arrayIndex k') as [j|]; [destruct (j <? i)%N|]; csimpl; try done.
  rewrite IH. apply Permutation_swap.
Qed.

Lemma ownGet_app l1 l2 k :
  ownGet (l1 ++ l2) k
  = match ownGet l1 k with
    | Some v => Some v
    | None => ownGet l2 k
    end.
Proof.
  induction l1 as [|[k' v'] l1 IH]; simpl; [done|]. by case_decide.
Qed.

Lemma ownGet_ownSet_eq k v l : ownGet (ownSet k v l) k = Some v.
Proof.
  unfold ownSet. case_decide as Hin.
  - by apply ownGet_ownReplace_eq.
  - destruct (arrayIndex k); [by apply ownGet_insertIndexed_eq|].
    rewrite ownGet_app. apply ownGet_None in Hin. rewrite Hin. simpl.
    by rewrite decide_True.
Qed.

Lemma ownGet_ownSet_ne k k' v l : k ≠ k' → ownGet (ownSet k v l) k' = ownGet l k'.
Proof.
  intros Hne. unfold ownSet. case_decide.
  - by apply ownGet_ownReplace_ne.
  - destruct (arrayIndex k); [by apply ownGet_insertIndexed_ne|].
    rewrite ownGet_app. destruct (ownGet l k'); [done|]. simpl.
    by rewrite decide_False.
Qed.

Lemma ownSet_keys k v l :
  (ownSet k v l).*1 ≡ₚ if decide (k ∈ l.*1) then l.*1 else k :: l.*1.
Proof.
  unfold ownSet. case_decide.
  - by rewrite ownReplace_keys.
  - destruct (arrayIndex k); [apply insertIndexed_keys|].
    rewrite fmap_app. csimpl. by rewrite Permutation_app_comm.
Qed.

Lemma elem_of_ownSet_keys k v l k' :
  k' ∈ (ownSet k v l).*1 ↔ k' = k ∨ k' ∈ l.*1.
Proof.
  rewrite ownSet_keys. case_decide.
  - split; [auto | intros [->|]; done].
  - by rewrite elem_of_cons.
Qed.

Lemma ownSet_NoDup k v l : NoDup l.*1 → NoDup (ownSet k v l).*1.
Proof.
  intros Hnd. rewrite ownSet_keys. case_decide; [done|].
  by apply NoDup_cons.
Qed.

(** A name that is not an array index is listed where it was created. *)
Lemma ownSet_keys_plain k v l :
  arrayIndex k = None → (ownSet k v l).*1 = setAdd l.*1 k.
Proof.
  intros Hk. unfold ownSet, setAdd. case_decide.
  - apply ownReplace_keys.
  - rewrite Hk, fmap_app. done.
Qed.

Lemma ownSet_fresh_plain k v l :
  arrayIndex k = None → k ∉ l.*1 → ownSet k v l = l ++ [(k, v)].
Proof.
  intros Hk Hout. unfold ownSet. by rewrite decide_False, Hk.
Qed.

End OwnFacts.

Section ObjectFacts.
Context {A : Type}.
Implicit Types (o : obj A) (k : string) (v : A).

Lemma objGet_objSet_eq o k v : objGet (objSet k v o) k = Some v.
Proof.
  unfold objGet, objSet. case_decide as Hk; simpl.
  - destruct Hk as [-> Hout]. apply ownGet_None in Hout. rewrite Hout.
    by rewrite decide_True.
  - by rewrite ownGet_ownSet_eq.
Qed.

Lemma objGet_objSet_ne o k k' v : k ≠ k' → objGet (objSet k v o) k' = objGet o k'.
Proof.
  intros Hne. unfold objGet, objSet. case_decide as Hk; simpl.
  - destruct Hk as [-> _]. destruct (ownGet (own o) k'); [done|].
    by rewrite !decide_False by (by intros ->).
  - by rewrite ownGet_ownSet_ne.
Qed.

Lemma elem_of_objKeys_objSet o k v k' :
  "__proto__" ∉ objKeys o →
  k' ∈ objKeys (objSet k v o) ↔ (k' = k ∧ k ≠ "__proto__") ∨ k' ∈ objKeys o.
Proof.
  intros Hproto. unfold objKeys, objSet. case_decide as Hk; simpl.
  - destruct Hk as [-> _]. naive_solver.
  - rewrite elem_of_ownSet_keys.
    assert (k ≠ "__proto__") by (intros ->; by apply Hk). naive_solver.
Qed.

Lemma objSet_no_proto_key o k v :
  "__proto__" ∉ objKeys o → "__proto__" ∉ objKeys (objSet k v o).
Proof.
  intros Hproto. rewrite elem_of_objKeys_objSet by done. naive_solver.
Qed.

Lemma objSet_NoDup o k v : NoDup (objKeys o) → NoDup (objKeys (objSet k v o)).
Proof.
  intros Hnd. unfold objKeys, objSet. case_decide; simpl; [done|].
  by apply ownSet_NoDup.
Qed.

Lemma objKeys_objSet_plain o k v :
  plainKey k → objKeys (objSet k v o) = setAdd (objKeys o) k.
Proof.
  intros [Hindex Hne]. unfold objKeys, objSet.
  rewrite decide_False by (by intros [? _]). simpl.
  by apply ownSet_keys_plain.
Qed.

Lemma objSet_proto_plain o k v : k ≠ "__proto__" → proto (objSet k v o) = proto o.
Proof.
  intros Hne. unfold objSet. by rewrite decide_False by (by intros [? _]).
Qed.

Lemma objGet_own o k v : ownGet (own o) k = Some v → objGet o k = Some v.
Proof. unfold objGet. by intros ->. Qed.

Lemma objGet_absent o k :
  k ∉ objKeys o → k ≠ "__proto__" → objGet o k = None.
Proof.
  intros Hout Hne. unfold objGet. apply ownGet_None in Hout.
  by rewrite Hout, decide_False.
Qed.

End ObjectFacts.

(** [fold_left setAdd] with an arbitrary starting set. *)
Lemma setAdd_fold_elem (l acc : list string) (x : string) :
  x ∈ fold_left setAdd l acc ↔ x ∈ acc ∨ x ∈ l.
Proof.
  revert acc. induction l as [|y l IH]; intros acc; simpl.
  - rewrite elem_of_nil. tauto.
  - rewrite IH, elem_of_cons. unfold setAdd. case_decide.
    + split; [tauto | intros [?|[->|?]]; auto].
    + rewrite elem_of_app, list_elem_of_singleton. tauto.
Qed.

Lemma setAdd_fold_NoDup (l acc : list string) :
  NoDup acc → NoDup (fold_left setAdd l acc).
Proof.
  revert acc. induction l as [|y l IH]; intros acc Hacc; simpl; [done|].
  apply IH. unfold setAdd. case_decide; [done|].
  apply NoDup_app. split_and!; [done | | apply NoDup_singleton].
  intros x Hx Hy. apply list_elem_of_singleton in Hy. by subst.
Qed.

Lemma elem_of_setOf (l : list string) (x : string) : x ∈ setOf l ↔ x ∈ l.
Proof. unfold setOf. rewrite setAdd_fold_elem, elem_of_nil. tauto. Qed.

Lemma NoDup_setOf (l : list string) : NoDup (setOf l).
Proof. apply setAdd_fold_NoDup, NoDup_nil_2. Qed.

(** ** Lookups *)

Section LookupFacts.
Implicit Types (k : string) (o : obj SizeEntry).

(** A written-out property name is found among own properties only. *)
Lemma read_is_lookup {A : Type} (v : node A) (name : string) :
  name ∈ literalNames → lookup v name = Val <$> read v name.
Proof.
  intros Hname.
  assert (name ∉ numberPrototype ++ objectPrototype) as Hout.
  { unfold literalNames in Hname.
    repeat (apply elem_of_cons in Hname as [->|Hname]; [by compute_done|]).
    by apply elem_of_nil in Hname. }
  destruct v as [n|fields]; simpl.
  - by rewrite decide_False.
  - destruct (ownGet fields name); [done|].
    rewrite decide_False; [done|]. intros Hin. apply Hout.
    apply elem_of_app. by right.
Qed.

Lemma ownGet_fmap {A B : Type} (f : A → B) (l : list (string * A)) k :
  ownGet (prod_map id f <$> l) k = f <$> ownGet l k.
Proof.
  induction l as [|[k' v'] l IH]; csimpl; [done|].
  destruct (decide (k' = k)); [done | apply IH].
Qed.

Lemma keys_fmap {A B : Type} (f : A → B) (l : list (string * A)) :
  (prod_map id f <$> l).*1 = l.*1.
Proof.
  rewrite <- list_fmap_compose. apply list_fmap_ext. by intros ? [??].
Qed.

Lemma lookup_parsedEntries (sizes : list (string * SizeEntry)) k :
  lookup (parsedEntries sizes) k
  = match ownGet sizes k with
    | Some s => Some (Val (sizeEntry s))
    | None => if decide (k ∈ objectPrototype) then Some Builtin else None
    end.
Proof.
  unfold parsedEntries, lookup. rewrite ownGet_fmap.
  by destruct (ownGet sizes k).
Qed.

Lemma keys_parsedEntries (sizes : list (string * SizeEntry)) :
  keys (parsedEntries sizes) = sizes.*1.
Proof. apply keys_fmap. Qed.

Lemma read_parsedSizes o k :
  read (parsedSizes o) k = sizePart <$> ownGet (own o) k.
Proof. unfold parsedSizes, read. apply ownGet_fmap. Qed.

Lemma keys_parsedSizes o : keys (parsedSizes o) = objKeys o.
Proof. apply keys_fmap. Qed.

(** On an object with the default prototype, a computed key reads as on
    the document the object is persisted as. *)
Lemma sizeLookup_default o k :
  proto o = None → sizeLookup o k = lookup (parsedEntries (own o)) k.
Proof.
  intros Hproto. unfold sizeLookup. by rewrite lookup_parsedEntries, Hproto.
Qed.

Lemma sizeLookup_own o k s :
  ownGet (own o) k = Some s → sizeLookup o k = Some (Val (sizeEntry s)).
Proof. unfold sizeLookup. by intros ->. Qed.

(** An entry the program stored is what a computed key finds. *)
Lemma sizeLookup_objGet o k s :
  objGet o k = Some s → sizeLookup o k = Some (Val (sizeEntry s)).
Proof.
  unfold objGet, sizeLookup. destruct (ownGet (own o) k) as [s'|].
  - by intros [= ->].
  - destruct (decide (k = "__proto__")) as [->|]; [|done].
    intros ->. done.
Qed.

Lemma sizeLookup_absent o k :
  proto o = None → k ∉ objKeys o → ordinary k → sizeLookup o k = None.
Proof.
  intros Hproto Hout Hk. unfold sizeLookup.
  apply ownGet_None in Hout. by rewrite Hout, Hproto, decide_False.
Qed.

Lemma lookup_absent {A : Type} (fields : list (string * A)) k :
  k ∉ fields.*1 → ordinary k → lookup (Obj fields) k = None.
Proof.
  intros Hout Hk. simpl. apply ownGet_None in Hout.
  by rewrite Hout, decide_False.
Qed.

Lemma lookup_empty_object {A : Type} k :
  lookup (A := A) (Obj []) k
  = if decide (k ∈ objectPrototype) then Some Builtin else None.
Proof. done. Qed.

End LookupFacts.
(** ** SizeMeasurer *)

Section MeasureFacts.
Context `{Node}.
Implicit Types (st : Runtime) (scriptPath p : string) (calls : list string).

Lemma getScriptSize_hit st scriptPath v :
  memoryCache st !! path_join [nextMetaRoot; scriptPath] = Some v →
  getScriptSize scriptPath st = (v, st).
Proof. intros Hc. unfold getScriptSize. rewrite Hc. by destruct v. Qed.

Lemma getScriptSize_cached st scriptPath :
  memoryCache (getScriptSize scriptPath st).2
    !! path_join [nextMetaRoot; scriptPath]
  = Some (getScriptSize scriptPath st).1.
Proof.
  unfold getScriptSize.
  destruct (memoryCache st !! _) as [[r g]|] eqn:Hc; simpl; [done|].
  destruct (fs _); simpl; by rewrite lookup_insert_eq.
Qed.

Lemma getScriptSize_keeps st scriptPath p v :
  memoryCache st !! p = Some v →
  memoryCache (getScriptSize scriptPath st).2 !! p = Some v.
Proof.
  intros Hp. unfold getScriptSize.
  destruct (memoryCache st !! path_join _) as [[r g]|] eqn:Hc; simpl; [done|].
  assert (path_join [nextMetaRoot; scriptPath] ≠ p) by congruence.
  destruct (fs _); simpl; by rewrite lookup_insert_ne.
Qed.

Lemma afterCalls_keeps calls st p v :
  memoryCache st !! p = Some v → memoryCache (afterCalls calls st) !! p = Some v.
Proof.
  revert st. induction calls as [|c calls IH]; intros st Hp; simpl; [done|].
  apply IH. by apply getScriptSize_keeps.
Qed.

Lemma initial_coherent : coherent initial.
Proof.
  split_and!; simpl.
  - intros p v Hp. by rewrite lookup_empty in Hp.
  - apply NoDup_nil_2.
  - intros p Hp. by apply elem_of_nil in Hp.
Qed.

Lemma getScriptSize_coherent st scriptPath :
  coherent st →
  coherent (getScriptSize scriptPath st).2 ∧
  (getScriptSize scriptPath st).1 = measure scriptPath.
Proof.
  intros (Hval & Hnd & Hread). unfold getScriptSize, measure.
  set (p := path_join [nextMetaRoot; scriptPath]).
  destruct (memoryCache st !! p) as [[r g]|] eqn:Hc; simpl.
  { split; [by split_and! | by apply Hval]. }
  unfold measureResolved.
  destruct (fs p) as [text|] eqn:Hfs; simpl; (split; [|done]);
    unfold coherent; split_and!; simpl.
  - intros q v. destruct (decide (p = q)) as [<-|Hne].
    + rewrite lookup_insert_eq. intros [= <-]. unfold measureResolved. by rewrite Hfs.
    + rewrite lookup_insert_ne by done. apply Hval.
  - apply NoDup_app. split_and!; [done | | apply NoDup_singleton].
    intros q Hq Hp. apply list_elem_of_singleton in Hp as ->.
    apply Hread in Hq as [v Hv]. congruence.
  - intros q Hq. apply elem_of_app in Hq as [Hq | Hq].
    + destruct (decide (p = q)) as [<-|Hne].
      * rewrite lookup_insert_eq. by eexists.
      * rewrite lookup_insert_ne by done. by apply Hread.
    + apply list_elem_of_singleton in Hq as ->. rewrite lookup_insert_eq. by eexists.
  - intros q v. destruct (decide (p = q)) as [<-|Hne].
    + rewrite lookup_insert_eq. intros [= <-]. unfold measureResolved. by rewrite Hfs.
    + rewrite lookup_insert_ne by done. apply Hval.
  - done.
  - intros q Hq. destruct (decide (p = q)) as [<-|Hne].
    + rewrite lookup_insert_eq. by eexists.
    + rewrite lookup_insert_ne by done. by apply Hread.
Qed.

Lemma afterCalls_coherent calls st : coherent st → coherent (afterCalls calls st).
Proof.
  revert st. induction calls as [|c calls IH]; intros st Hst; simpl; [done|].
  apply IH. by apply getScriptSize_coherent.
Qed.

Lemma addSize_zero_l (s : SizeEntry) : addSize zeroSize s = s.
Proof. destruct s. unfold addSize. simpl. f_equal. Qed.

Lemma getScriptSizes_fold (paths : list string) (acc : SizeEntry) st :
  coherent st →
  coherent (fold_left addScript paths (acc, st)).2 ∧
  (fold_left addScript paths (acc, st)).1 = addSize acc (sumMeasured paths).
Proof.
  revert acc st. induction paths as [|x paths IH]; intros acc st Hst; simpl.
  - split; [done|]. destruct acc. unfold addSize. simpl. f_equal; lia.
  - destruct (getScriptSize_coherent st x Hst) as [Hst' Hres].
    unfold addScript at 2 4. simpl.
    destruct (getScriptSize x st) as [[r g] st'] eqn:Hcall. simpl in *.
    destruct (IH {| raw := raw acc + r; gzip := gzip acc + g |} st' Hst') as [Hco ->].
    split; [done|]. rewrite <- Hres. unfold addSize, sizeOfPair. simpl. f_equal; lia.
Qed.

Lemma getScriptSizes_spec (paths : list string) st :
  coherent st →
  coherent (getScriptSizes paths st).2 ∧
  (getScriptSizes paths st).1 = sumMeasured paths.
Proof.
  intros Hst. unfold getScriptSizes.
  destruct (getScriptSizes_fold paths zeroSize st Hst) as [Hco ->].
  split; [done | apply addSize_zero_l].
Qed.

End MeasureFacts.

(** ** Aggregation over the manifests *)

Section RunFacts.
Context `{Node}.
Implicit Types (st : Runtime) (m : Manifests).

Lemma pageStep_unfold (G : list string) (acc : obj SizeEntry) st
    (pagePath : string) (scriptPaths : list string) :
  pageStep G (acc, st) (pagePath, scriptPaths)
  = (objSet pagePath
       (getScriptSizes (filter (fun scriptPath => scriptPath ∉ G) scriptPaths) st).1
       acc,
     (getScriptSizes (filter (fun scriptPath => scriptPath ∉ G) scriptPaths) st).2).
Proof. unfold pageStep. simpl. by destruct (getScriptSizes _ st). Qed.

Lemma pageStep_fold_coherent (G : list string)
    (pages : list (string * list string)) (acc : obj SizeEntry) st :
  coherent st → coherent (fold_left (pageStep G) pages (acc, st)).2.
Proof.
  revert acc st. induction pages as [|[k0 paths0] pages IH]; intros acc st Hst.
  { done. }
  simpl. rewrite pageStep_unfold. apply IH. by apply getScriptSizes_spec.
Qed.

Lemma pageStep_fold (G : list string) (pages : list (string * list string))
    (acc : obj SizeEntry) st :
  coherent st → NoDup pages.*1 →
  (∀ pagePath scriptPaths, (pagePath, scriptPaths) ∈ pages →
     objGet (fold_left (pageStep G) pages (acc, st)).1 pagePath
     = Some (sumMeasured (filter (fun scriptPath => scriptPath ∉ G) scriptPaths))) ∧
  (∀ k, k ∉ pages.*1 →
     objGet (fold_left (pageStep G) pages (acc, st)).1 k = objGet acc k).
Proof.
  revert acc st. induction pages as [|[k0 paths0] pages IH]; intros acc st Hst Hnd.
  { simpl. split; [|done]. intros ?? Hin. by apply elem_of_nil in Hin. }
  csimpl in Hnd. apply NoDup_cons in Hnd as [Hfresh Hnd].
  simpl. rewrite pageStep_unfold.
  destruct (getScriptSizes_spec
              (filter (fun scriptPath => scriptPath ∉ G) paths0) st Hst)
    as [Hst' ->].
  destruct (IH (objSet k0
                  (sumMeasured (filter (fun scriptPath => scriptPath ∉ G) paths0))
                  acc) _ Hst' Hnd) as (Hin & Hout).
  split.
  - intros pagePath scriptPaths Hmem.
    apply elem_of_cons in Hmem as [Heq | Hmem]; [|by apply Hin].
    simplify_eq. rewrite Hout by done. apply objGet_objSet_eq.
  - intros k Hk. csimpl in Hk.
    apply not_elem_of_cons in Hk as [Hne Hk].
    rewrite Hout by done. by apply objGet_objSet_ne.
Qed.

(** The objects a run builds have no own property [__proto__] and list no
    key twice. *)
Lemma pageStep_fold_shape (G : list string) (pages : list (string * list string))
    (acc : obj SizeEntry) st :
  ("__proto__" ∉ objKeys acc) → NoDup (objKeys acc) →
  ("__proto__" ∉ objKeys (fold_left (pageStep G) pages (acc, st)).1) ∧
  NoDup (objKeys (fold_left (pageStep G) pages (acc, st)).1).
Proof.
  revert acc st. induction pages as [|[k0 paths0] pages IH]; intros acc st Hp Hnd.
  { done. }
  simpl. rewrite pageStep_unfold.
  apply IH; [by apply objSet_no_proto_key | by apply objSet_NoDup].
Qed.

Lemma pageStep_fold_keys (G : list string) (pages : list (string * list string))
    (acc : obj SizeEntry) st (k : string) :
  "__proto__" ∉ objKeys acc →
  k ∈ objKeys (fold_left (pageStep G) pages (acc, st)).1
  ↔ k ∈ objKeys acc ∨ (k ∈ pages.*1 ∧ k ≠ "__proto__").
Proof.
  revert acc st. induction pages as [|[k0 paths0] pages IH]; intros acc st Hp.
  { simpl. rewrite elem_of_nil. tauto. }
  simpl. rewrite pageStep_unfold, IH by (by apply objSet_no_proto_key).
  rewrite elem_of_objKeys_objSet by done.
  csimpl. rewrite elem_of_cons. naive_solver.
Qed.

Lemma fileSizeStep_unfold (acc : obj SizeEntry) st (file : string) :
  fileSizeStep (acc, st) file
  = (objSet file (sizeOfPair (getScriptSize file st).1) acc,
     (getScriptSize file st).2).
Proof. unfold fileSizeStep. simpl. by destruct (getScriptSize file st) as [[??]?]. Qed.

Lemma fileSizeStep_fold (files : list string) (acc : obj SizeEntry) st :
  coherent st →
  coherent (fold_left fileSizeStep files (acc, st)).2 ∧
  (∀ f, f ∈ files →
     objGet (fold_left fileSizeStep files (acc, st)).1 f
     = Some (sizeOfPair (measure f))) ∧
  (∀ k, k ∉ files →
     objGet (fold_left fileSizeStep files (acc, st)).1 k = objGet acc k).
Proof.
  revert acc st. induction files as [|x files IH]; intros acc st Hst.
  { simpl. split_and!; [done | | done].
    intros ? Hin. by apply elem_of_nil in Hin. }
  simpl. rewrite fileSizeStep_unfold.
  destruct (getScriptSize_coherent st x Hst) as [Hst' ->].
  destruct (IH (objSet x (sizeOfPair (measure x)) acc) _ Hst')
    as (Hco & Hin & Hout).
  split_and!; [done | |].
  - intros f Hf. destruct (decide (f ∈ files)) as [Hmem|Hmem]; [by apply Hin|].
    apply elem_of_cons in Hf as [->|Hf]; [|done].
    rewrite Hout by done. apply objGet_objSet_eq.
  - intros k Hk. apply not_elem_of_cons in Hk as [Hne Hk].
    rewrite Hout by done. by apply objGet_objSet_ne.
Qed.

Lemma fileSizeStep_fold_shape (files : list string) (acc : obj SizeEntry) st :
  ("__proto__" ∉ objKeys acc) → NoDup (objKeys acc) →
  ("__proto__" ∉ objKeys (fold_left fileSizeStep files (acc, st)).1) ∧
  NoDup (objKeys (fold_left fileSizeStep files (acc, st)).1).
Proof.
  revert acc st. induction files as [|x files IH]; intros acc st Hp Hnd.
  { done. }
  simpl. rewrite fileSizeStep_unfold.
  apply IH; [by apply objSet_no_proto_key | by apply objSet_NoDup].
Qed.

Lemma fileSizeStep_fold_keys (files : list string) (acc : obj SizeEntry) st
    (k : string) :
  "__proto__" ∉ objKeys acc →
  k ∈ objKeys (fold_left fileSizeStep files (acc, st)).1
  ↔ k ∈ objKeys acc ∨ (k ∈ files ∧ k ≠ "__proto__").
Proof.
  revert acc st. induction files as [|x files IH]; intros acc st Hp.
  { simpl. rewrite elem_of_nil. tauto. }
  simpl. rewrite fileSizeStep_unfold, IH by (by apply objSet_no_proto_key).
  rewrite elem_of_objKeys_objSet by done.
  rewrite elem_of_cons. naive_solver.
Qed.

Lemma emptyObj_shape {A : Type} :
  ("__proto__" ∉ objKeys (emptyObj (A := A))) ∧ NoDup (objKeys (emptyObj (A := A))).
Proof. split; [apply not_elem_of_nil | apply NoDup_nil_2]. Qed.

Lemma pagesRun_coherent m :
  coherent (allAppDirSizes m (getScriptSizes (globalAppDirBundle m) initial).2).2.
Proof.
  apply pageStep_fold_coherent.
  by apply getScriptSizes_spec, initial_coherent.
Qed.

Lemma report_page m (pagePath : string) (scriptPaths : list string) :
  NoDup (appDirPages m).*1 →
  (pagePath, scriptPaths) ∈ appDirPages m →
  objGet (__pages (outputJson (report m))) pagePath
  = Some (sumMeasured
            (filter (fun scriptPath => scriptPath ∉ globalAppDirBundle m)
                    scriptPaths)).
Proof.
  intros Hnd Hin. simpl. unfold allAppDirSizes.
  destruct (getScriptSizes_spec (globalAppDirBundle m) initial
              initial_coherent) as [Hst _].
  destruct (pageStep_fold (globalAppDirBundle m) (appDirPages m) emptyObj
              _ Hst Hnd) as (Hpages & _).
  by apply Hpages.
Qed.

Lemma report_page_keys m (k : string) :
  k ∈ objKeys (__pages (outputJson (report m)))
  ↔ k ∈ (appDirPages m).*1 ∧ k ≠ "__proto__".
Proof.
  simpl. unfold allAppDirSizes.
  rewrite pageStep_fold_keys by apply not_elem_of_nil.
  unfold objKeys at 1. simpl. rewrite elem_of_nil. tauto.
Qed.

Lemma report_pages_shape m :
  ("__proto__" ∉ objKeys (__pages (outputJson (report m)))) ∧
  NoDup (objKeys (__pages (outputJson (report m)))).
Proof. simpl. unfold allAppDirSizes. apply pageStep_fold_shape; apply emptyObj_shape. Qed.

Lemma report_file m (file : string) :
  file ∈ allFiles m →
  objGet (__files (outputJson (report m))) file
  = Some (sizeOfPair (measure file)).
Proof.
  intros Hin. simpl. unfold fileSizes.
  destruct (fileSizeStep_fold (allFiles m) emptyObj _ (pagesRun_coherent m))
    as (_ & Hfiles & _).
  by apply Hfiles.
Qed.

Lemma report_file_keys m (k : string) :
  k ∈ objKeys (__files (outputJson (report m)))
  ↔ k ∈ allFiles m ∧ k ≠ "__proto__".
Proof.
  simpl. unfold fileSizes.
  rewrite fileSizeStep_fold_keys by apply not_elem_of_nil.
  unfold objKeys at 1. simpl. rewrite elem_of_nil. tauto.
Qed.

Lemma report_files_shape m :
  ("__proto__" ∉ objKeys (__files (outputJson (report m)))) ∧
  NoDup (objKeys (__files (outputJson (report m)))).
Proof. simpl. unfold fileSizes. apply fileSizeStep_fold_shape; apply emptyObj_shape. Qed.

Lemma report_coherent m : coherent (finalState (report m)).
Proof.
  simpl. unfold fileSizes.
  by destruct (fileSizeStep_fold (allFiles m) emptyObj _ (pagesRun_coherent m))
    as (Hco & _).
Qed.

End RunFacts.


(** On [unusualManifests] the run builds its objects as the language does:
    array indices come first, in ascending order, and a page, a file or a
    route named [__proto__] becomes the prototype and is no key. *)
Example unusual_names_in_a_run :
  objKeys (__pages (outputJson (@report demoNode unusualManifests)))
  = ["2"; "10"; "/page"] ∧
  proto (__pages (outputJson (@report demoNode unusualManifests)))
  = Some {| raw := 2; gzip := 1 |} ∧
  objKeys (__files (outputJson (@report demoNode unusualManifests)))
  = ["7"; "a.js"; "b.js"] ∧
  objKeys (__routes (outputJson (@report demoNode unusualManifests)))
  = ["0"; "/about"].
Proof. split_and!; by vm_compute. Qed.
(** ** Claims on measurement and aggregation *)

(** C7.  Measuring a path whose file is absent from the build output store
    returns [{raw: 0, gzip: 0}]: at any point of a run [getScriptSize]
    returns [[0, 0]], [getScriptSizes] adds nothing for it, and the run
    records the file in [__files] with size zero.  Every function involved
    is total: no error is raised. *)
Theorem missing_file_measures_zero `{Node}
    (calls : list string) (scriptPath : string) :
  fs (path_join [nextMetaRoot; scriptPath]) = None →
  (getScriptSize scriptPath (afterCalls calls initial)).1 = (0, 0)%Z ∧
  (getScriptSizes [scriptPath] (afterCalls calls initial)).1 = zeroSize ∧
  ∀ m, scriptPath ∈ allFiles m →
       objGet (__files (outputJson (report m))) scriptPath = Some zeroSize.
Proof.
  intros Hmissing.
  assert (measure scriptPath = (0, 0)%Z) as Hzero.
  { unfold measure, measureResolved. by rewrite Hmissing. }
  pose proof (afterCalls_coherent calls initial initial_coherent) as Hco.
  split_and!.
  - destruct (getScriptSize_coherent _ scriptPath Hco) as [_ ->]. done.
  - destruct (getScriptSizes_spec [scriptPath] _ Hco) as [_ ->].
    simpl. by rewrite Hzero.
  - intros m Hin. rewrite report_file by done. by rewrite Hzero.
Qed.

Lemma missing_file_measures_zero_witness :
  @fs demoNode (@path_join demoNode [@nextMetaRoot demoNode; "c.js"]) = None ∧
  (@getScriptSize demoNode "c.js" (@afterCalls demoNode ["a.js"] initial)).1
  = (0, 0)%Z.
Proof.
  split; [reflexivity|].
  apply (@missing_file_measures_zero demoNode ["a.js"] "c.js"). reflexivity.
Defined.

Lemma getScriptSize_miss `{Node} (st : Runtime) (scriptPath : string) :
  memoryCache st !! path_join [nextMetaRoot; scriptPath] = None →
  (getScriptSize scriptPath st).1
  = measureResolved (path_join [nextMetaRoot; scriptPath]) ∧
  reads (getScriptSize scriptPath st).2
  = reads st ++ (if existsSync (path_join [nextMetaRoot; scriptPath])
                 then [path_join [nextMetaRoot; scriptPath]] else []).
Proof.
  intros Hmiss. unfold getScriptSize, measureResolved, existsSync.
  rewrite Hmiss. destruct (fs _); simpl; [done|]. by rewrite app_nil_r.
Qed.

(** C8.  Measurement is memoised by the resolved path.  A call stores the
    pair it returns in the cache under the resolved path; on a path that is
    not cached it measures the file, reading and compressing it once if it
    exists.  A call on a cached path returns the cached pair, whatever the
    store holds, and leaves the cache and the read trace as they were.  So
    once a path has been measured, any later measurement of a path that
    resolves to the same location, whatever was measured in between,
    returns the same [(raw, gzip)] pair without a read; and in a run no
    path is read and compressed more than once. *)
Theorem measurement_is_memoized `{Node}
    (st : Runtime) (a b : string) (calls : list string) :
  path_join [nextMetaRoot; a] = path_join [nextMetaRoot; b] →
  memoryCache (getScriptSize a st).2 !! path_join [nextMetaRoot; a]
  = Some (getScriptSize a st).1 ∧
  (memoryCache st !! path_join [nextMetaRoot; a] = None →
   (getScriptSize a st).1 = measureResolved (path_join [nextMetaRoot; a]) ∧
   reads (getScriptSize a st).2
   = reads st ++ (if existsSync (path_join [nextMetaRoot; a])
                  then [path_join [nextMetaRoot; a]] else [])) ∧
  (∀ st' v, memoryCache st' !! path_join [nextMetaRoot; a] = Some v →
            getScriptSize b st' = (v, st')) ∧
  getScriptSize b (afterCalls calls (getScriptSize a st).2)
  = ((getScriptSize a st).1, afterCalls calls (getScriptSize a st).2) ∧
  (∀ l, NoDup (reads (afterCalls l initial))) ∧
  (∀ m, NoDup (reads (finalState (report m)))).
Proof.
  intros Hsame. split_and!.
  - apply getScriptSize_cached.
  - apply getScriptSize_miss.
  - intros st' v Hv. apply getScriptSize_hit. by rewrite <- Hsame.
  - apply getScriptSize_hit. rewrite <- Hsame.
    apply afterCalls_keeps, getScriptSize_cached.
  - intros l. by destruct (afterCalls_coherent l initial initial_coherent)
      as (_ & Hnd & _).
  - intros m. by destruct (report_coherent m) as (_ & Hnd & _).
Qed.

Lemma measurement_is_memoized_witness :
  @path_join demoNode [@nextMetaRoot demoNode; "a.js"]
  = @path_join demoNode [@nextMetaRoot demoNode; "./a.js"] ∧
  memoryCache (@getScriptSize demoNode "a.js" initial).2 !! "/w/.next/a.js"
  = Some (4, 2)%Z ∧
  reads (@getScriptSize demoNode "a.js" initial).2 = ["/w/.next/a.js"] ∧
  @getScriptSize demoNode "./a.js"
    (@afterCalls demoNode ["b.js"] (@getScriptSize demoNode "a.js" initial).2)
  = ((4, 2)%Z,
     @afterCalls demoNode ["b.js"] (@getScriptSize demoNode "a.js" initial).2).
Proof.
  split; [reflexivity|].
  destruct (@measurement_is_memoized demoNode initial "a.js" "./a.js" ["b.js"]
              eq_refl) as (Hstored & Hmiss & _ & Hlater & _).
  split; [exact Hstored|].
  split; [exact (proj2 (Hmiss eq_refl)) | exact Hlater].
Defined.

Lemma filter_out_replicate (G : list string) (g : string) (n : nat) :
  g ∈ G → filter (fun scriptPath => scriptPath ∉ G) (replicate n g) = [].
Proof.
  intros Hg. induction n as [|n IH]; simpl; [done|].
  rewrite filter_cons_False; [apply IH | by intros Hng].
Qed.

(** C1.  For every page of the manifest, the total recorded for the page is
    the sum of the measurements of the script paths that are not members of
    the global file list; a member of the global list contributes nothing,
    however many times the page lists it. *)
Theorem global_files_never_count_for_a_page `{Node}
    (m : Manifests) (pagePath : string) (scriptPaths : list string) :
  NoDup (appDirPages m).*1 →
  (pagePath, scriptPaths) ∈ appDirPages m →
  objGet (__pages (outputJson (report m))) pagePath
  = Some (sumMeasured
            (filter (fun scriptPath => scriptPath ∉ globalAppDirBundle m)
                    scriptPaths)) ∧
  ∀ g n before after,
    g ∈ globalAppDirBundle m →
    scriptPaths = before ++ replicate n g ++ after →
    objGet (__pages (outputJson (report m))) pagePath
    = Some (sumMeasured
              (filter (fun scriptPath => scriptPath ∉ globalAppDirBundle m)
                      (before ++ after))).
Proof.
  intros Hnd Hin. split; [by apply report_page|].
  intros g n before after Hg ->.
  rewrite (report_page m pagePath _ Hnd Hin). do 2 f_equal.
  rewrite !filter_app.
  by rewrite filter_out_replicate.
Qed.

Lemma global_files_never_count_for_a_page_witness :
  NoDup (appDirPages demoManifests).*1 ∧
  ("/page", ["a.js"; "b.js"; "a.js"; "c.js"]) ∈ appDirPages demoManifests ∧
  objGet (__pages (outputJson (@report demoNode demoManifests))) "/page"
  = Some (@sumMeasured demoNode ["b.js"; "c.js"]).
Proof.
  split; [by compute_done|]. split; [by compute_done|].
  apply (@global_files_never_count_for_a_page demoNode demoManifests
           "/page" ["a.js"; "b.js"; "a.js"; "c.js"]); by compute_done.
Defined.

(** ** DiffEngine *)

Section DiffFacts.
Implicit Types (prevFiles prevPages : part) (key : string).
Implicit Types (currFiles currPages : obj SizeEntry).

Lemma omap_cons_option_list {A B : Type} (f : A → option B) (x : A) (l : list A) :
  omap f (x :: l) = option_list (f x) ++ omap f l.
Proof. csimpl. by destruct (f x). Qed.

Lemma fileStep_unfold prevFiles currFiles ch ad rm key :
  fileStep prevFiles currFiles (ch, ad, rm) key
  = (ch ++ option_list (changedAt prevFiles currFiles key),
     ad ++ option_list (newAt prevFiles currFiles key),
     rm ++ option_list (removedAt prevFiles currFiles key)).
Proof.
  unfold fileStep, changedAt, newAt, removedAt.
  destruct (whenTruthy (lookup prevFiles key)) as [p|],
           (whenTruthy (sizeLookup currFiles key)) as [c|]; simpl;
    try destruct (nonZero _); simpl; by rewrite ?app_nil_r.
Qed.

Lemma fileStep_fold prevFiles currFiles (ks : list string) ch ad rm :
  fold_left (fileStep prevFiles currFiles) ks (ch, ad, rm)
  = (ch ++ omap (changedAt prevFiles currFiles) ks,
     ad ++ omap (newAt prevFiles currFiles) ks,
     rm ++ omap (removedAt prevFiles currFiles) ks).
Proof.
  revert ch ad rm. induction ks as [|k ks IH]; intros ch ad rm.
  - simpl. by rewrite !app_nil_r.
  - cbn [fold_left]. rewrite fileStep_unfold, IH, !omap_cons_option_list.
    by rewrite !app_assoc.
Qed.

Lemma pageChangeStep_fold prevPages currPages (ks : list string) acc :
  fold_left (pageChangeStep prevPages currPages) ks acc
  = acc ++ omap (pageChangeAt prevPages currPages) ks.
Proof.
  revert acc. induction ks as [|k ks IH]; intros acc.
  - simpl. by rewrite app_nil_r.
  - cbn [fold_left]. rewrite IH, omap_cons_option_list, app_assoc. f_equal.
    unfold pageChangeStep, pageChangeAt.
    destruct (nonZero _); simpl; by rewrite ?app_nil_r.
Qed.

(** The keys listed by a pass are the keys that contribute, in key order. *)
Lemma omap_keys {B : Type} (f : string → option B) (proj : B → string)
    (ks : list string) :
  (∀ k x, f k = Some x → proj x = k) →
  proj <$> omap f ks = filter (fun k => is_Some (f k)) ks.
Proof.
  intros Hproj. induction ks as [|k ks IH]; [done|].
  csimpl. destruct (f k) as [x|] eqn:Hf; csimpl.
  - rewrite filter_cons_True by (rewrite Hf; by eexists).
    f_equal; [by apply Hproj | done].
  - rewrite filter_cons_False; [done|]. rewrite Hf. by intros [??].
Qed.

Lemma changedAt_file prevFiles currFiles key x :
  changedAt prevFiles currFiles key = Some x → cf_file x = key.
Proof.
  unfold changedAt.
  destruct (whenTruthy (lookup prevFiles key)),
           (whenTruthy (sizeLookup currFiles key)); try done.
  destruct (nonZero _); [|done]. by intros [= <-].
Qed.

Lemma newAt_file prevFiles currFiles key x :
  newAt prevFiles currFiles key = Some x → nf_file x = key.
Proof.
  unfold newAt.
  destruct (whenTruthy (lookup prevFiles key)),
           (whenTruthy (sizeLookup currFiles key)); try done.
  by intros [= <-].
Qed.

Lemma removedAt_file prevFiles currFiles key x :
  removedAt prevFiles currFiles key = Some x → rf_file x = key.
Proof.
  unfold removedAt.
  destruct (whenTruthy (lookup prevFiles key)),
           (whenTruthy (sizeLookup currFiles key)); try done.
  by intros [= <-].
Qed.




(** Differences of size entries are numbers. *)
Lemma sizeDelta_sizeEntry (c p : SizeEntry) :
  sizeDelta (Val (sizeEntry c)) (Val (sizeEntry p))
  = {| d_raw := Some (raw c - raw p)%Z; d_gzip := Some (gzip c - gzip p)%Z |}.
Proof. done. Qed.

Lemma nonZero_numeric (dr dg : Z) :
  nonZero {| d_raw := Some dr; d_gzip := Some dg |} = true ↔ (dr ≠ 0 ∨ dg ≠ 0)%Z.
Proof.
  unfold nonZero. simpl. rewrite orb_true_iff, !negb_true_iff, !Z.eqb_neq. done.
Qed.

Lemma nonZero_numeric_false (dr dg : Z) :
  nonZero {| d_raw := Some dr; d_gzip := Some dg |} = false ↔ (dr = 0 ∧ dg = 0)%Z.
Proof.
  unfold nonZero. simpl. rewrite orb_false_iff, !negb_false_iff, !Z.eqb_eq. done.
Qed.

(** The difference with a built-in member is NaN on both sides. *)
Lemma sizeDelta_builtin (c : found entry) :
  sizeDelta c Builtin = {| d_raw := None; d_gzip := None |}.
Proof. unfold sizeDelta. simpl. by destruct (rawOf c), (gzipOf c). Qed.

(** The three passes read the previous document only through
    [prev?.__files || {}], [prev?.__pages || {}] and [prev?.__routes || {}]. *)
Lemma logDiffs_changedFiles prev curr :
  changedFiles (logDiffs prev curr)
  = omap (changedAt (orElse (optRead prev "__files") (Obj [])) (__files curr))
         (setOf (keys (orElse (optRead prev "__files") (Obj []))
                 ++ objKeys (__files curr))).
Proof. unfold logDiffs. simpl. by rewrite fileStep_fold. Qed.

Lemma logDiffs_newFiles prev curr :
  newFiles (logDiffs prev curr)
  = omap (newAt (orElse (optRead prev "__files") (Obj [])) (__files curr))
         (setOf (keys (orElse (optRead prev "__files") (Obj []))
                 ++ objKeys (__files curr))).
Proof. unfold logDiffs. simpl. by rewrite fileStep_fold. Qed.

Lemma logDiffs_removedFiles prev curr :
  removedFiles (logDiffs prev curr)
  = omap (removedAt (orElse (optRead prev "__files") (Obj [])) (__files curr))
         (setOf (keys (orElse (optRead prev "__files") (Obj []))
                 ++ objKeys (__files curr))).
Proof. unfold logDiffs. simpl. by rewrite fileStep_fold. Qed.

Lemma logDiffs_pageChanges prev curr :
  pageChanges (logDiffs prev curr)
  = omap (pageChangeAt (orElse (optRead prev "__pages") (Obj [])) (__pages curr))
         (setOf (keys (orElse (optRead prev "__pages") (Obj []))
                 ++ objKeys (__pages curr))).
Proof. unfold logDiffs. simpl. by rewrite pageChangeStep_fold. Qed.

(** What a key finds on a side that holds size entries: the entry, which
    is truthy; or a built-in member, which is truthy too; or nothing. *)
Lemma found_parsedEntries (sizes : list (string * SizeEntry)) key :
  whenTruthy (lookup (parsedEntries sizes) key)
  = match ownGet sizes key with
    | Some s => Some (Val (sizeEntry s))
    | None => if decide (ordinary key) then None else Some Builtin
    end.
Proof.
  rewrite lookup_parsedEntries. unfold ordinary.
  destruct (ownGet sizes key); [done|].
  destruct (decide (key ∈ objectPrototype)).
  - by rewrite decide_False by (by intros Hn).
  - by rewrite decide_True.
Qed.

Lemma found_own currFiles key s :
  ownGet (own currFiles) key = Some s →
  whenTruthy (sizeLookup currFiles key) = Some (Val (sizeEntry s)).
Proof. intros Hown. by rewrite (sizeLookup_own _ _ _ Hown). Qed.


End DiffFacts.

(** ** Claims on the file pass and the page pass *)









(** ** An empty previous side *)

Lemma omap_pointwise {A B : Type} (f g : A → option B) (l : list A) :
  (∀ x, x ∈ l → f x = g x) → omap f l = omap g l.
Proof.
  induction l as [|x l IH]; intros Hfg; [done|]. csimpl.
  rewrite Hfg by left. rewrite IH; [done|].
  intros y Hy. apply Hfg. by right.
Qed.

Lemma omap_nothing {A B : Type} (f : A → option B) (l : list A) :
  (∀ x, x ∈ l → f x = None) → omap f l = [].
Proof.
  induction l as [|x l IH]; intros Hf; [done|]. csimpl.
  rewrite Hf by left. apply IH. intros y Hy. apply Hf. by right.
Qed.

Lemma filter_everything (l : list string) :
  filter (fun r => r ∉ setOf []) l = l.
Proof.
  induction l as [|x l IH]; [done|].
  rewrite filter_cons_True; [by rewrite IH | apply not_elem_of_nil].
Qed.


Lemma filter_ext_elem (P Q : string → Prop) `{∀ k, Decision (P k)}
    `{∀ k, Decision (Q k)} (l : list string) :
  (∀ x, x ∈ l → (P x ↔ Q x)) → filter P l = filter Q l.
Proof.
  induction l as [|x l IH]; intros HPQ; [done|].
  rewrite !filter_cons. rewrite IH by (intros y Hy; apply HPQ; by right).
  destruct (decide (P x)) as [HP|HP], (decide (Q x)) as [HQ|HQ]; try done.
  - by apply HPQ in HP; [|left].
  - by apply HPQ in HQ; [|left].
Qed.

Lemma filter_none (P : string → Prop) `{∀ k, Decision (P k)} (l : list string) :
  (∀ x, x ∈ l → ¬ P x) → filter P l = [].
Proof.
  induction l as [|x l IH]; intros HP; [done|].
  rewrite filter_cons_False by (apply HP; left).
  apply IH. intros y Hy. apply HP. by right.
Qed.

Section EmptyPrevious.
Implicit Types (curr : Output) (key : string).

(** What a key of the current file map contributes when the previous file
    map is the empty object: the file is new, unless the key names a
    member of [Object.prototype], which the empty object inherits. *)
Lemma newAt_empty (currFiles : obj SizeEntry) key :
  key ∈ objKeys currFiles →
  newAt (Obj []) currFiles key
  = if decide (ordinary key)
    then (fun s => mkNew key (Val (sizeEntry s))) <$> ownGet (own currFiles) key
    else None.
Proof.
  intros Hkey. apply ownGet_is_Some in Hkey as [s Hs].
  unfold newAt. rewrite (found_own _ _ _ Hs), Hs.
  change (lookup (Obj []) key) with (lookup (parsedEntries []) key).
  rewrite found_parsedEntries. simpl. by destruct (decide (ordinary key)).
Qed.

Lemma changedAt_empty (currFiles : obj SizeEntry) key :
  key ∈ objKeys currFiles →
  changedAt (Obj []) currFiles key
  = if decide (ordinary key) then None
    else (fun s => {| cf_file := key; cf_prev := Builtin;
                      cf_curr := Val (sizeEntry s);
                      cf_delta := {| d_raw := None; d_gzip := None |} |})
           <$> ownGet (own currFiles) key.
Proof.
  intros Hkey. apply ownGet_is_Some in Hkey as [s Hs].
  unfold changedAt. rewrite (found_own _ _ _ Hs), Hs.
  change (lookup (Obj []) key) with (lookup (parsedEntries []) key).
  rewrite found_parsedEntries. simpl. by destruct (decide (ordinary key)).
Qed.

Lemma removedAt_empty (currFiles : obj SizeEntry) key :
  key ∈ objKeys currFiles → removedAt (Obj []) currFiles key = None.
Proof.
  intros Hkey. apply ownGet_is_Some in Hkey as [s Hs].
  unfold removedAt. rewrite (found_own _ _ _ Hs).
  by destruct (whenTruthy (lookup (Obj []) key)).
Qed.

Lemma pageChangeAt_empty (currPages : obj SizeEntry) key :
  key ∈ objKeys currPages → ordinary key →
  pageChangeAt (Obj []) currPages key
  = ownGet (own currPages) key ≫= againstZero key.
Proof.
  intros Hkey Hord. apply ownGet_is_Some in Hkey as [s Hs].
  unfold pageChangeAt, orElse. rewrite (found_own _ _ _ Hs), Hs.
  change (lookup (Obj []) key) with (lookup (parsedEntries []) key).
  rewrite found_parsedEntries. simpl. by rewrite decide_True.
Qed.

Lemma pageChangeAt_empty_builtin (currPages : obj SizeEntry) key :
  key ∈ objKeys currPages → ¬ ordinary key →
  pageChangeAt (Obj []) currPages key
  = (fun s => {| pc_page := key; pc_prev := Builtin;
                 pc_curr := Val (sizeEntry s);
                 pc_delta := {| d_raw := None; d_gzip := None |} |})
      <$> ownGet (own currPages) key.
Proof.
  intros Hkey Hord. apply ownGet_is_Some in Hkey as [s Hs].
  unfold pageChangeAt, orElse. rewrite (found_own _ _ _ Hs), Hs.
  change (lookup (Obj []) key) with (lookup (parsedEntries []) key).
  rewrite found_parsedEntries. simpl. by rewrite decide_False.
Qed.

(** The passes on a previous document that has no file map, no page map
    and no route map. *)
Lemma empty_previous_passes (prev : option doc) curr :
  orElse (optRead prev "__files") (Obj []) = Obj [] →
  orElse (optRead prev "__pages") (Obj []) = Obj [] →
  orElse (optRead prev "__routes") (Obj []) = Obj [] →
  nf_file <$> newFiles (logDiffs prev curr)
  = filter ordinary (setOf (objKeys (__files curr))) ∧
  cf_file <$> changedFiles (logDiffs prev curr)
  = filter (fun key => ¬ ordinary key) (setOf (objKeys (__files curr))) ∧
  removedFiles (logDiffs prev curr) = [] ∧
  newRoutes (logDiffs prev curr) = setOf (objKeys (__routes curr)) ∧
  removedRoutes (logDiffs prev curr) = [] ∧
  (Forall ordinary (objKeys (__files curr)) →
   newFiles (logDiffs prev curr) = allNew (__files curr) ∧
   changedFiles (logDiffs prev curr) = []) ∧
  (Forall ordinary (objKeys (__pages curr)) →
   pageChanges (logDiffs prev curr) = pagesAgainstZero (__pages curr)).
Proof.
  intros Hfiles Hpages Hroutes.
  rewrite logDiffs_newFiles, logDiffs_removedFiles, logDiffs_changedFiles,
    logDiffs_pageChanges, Hfiles, Hpages.
  unfold logDiffs. simpl. rewrite Hroutes. simpl.
  assert (∀ o : obj SizeEntry, ∀ key,
            key ∈ setOf (objKeys o) → key ∈ objKeys o) as Hset.
  { intros o key. by rewrite elem_of_setOf. }
  split_and!.
  - rewrite (omap_keys _ nf_file _ (newAt_file _ _)).
    apply filter_ext_elem. intros key Hkey. apply Hset in Hkey.
    rewrite newAt_empty by done. apply ownGet_is_Some in Hkey as [s ->].
    destruct (decide (ordinary key)); simpl; [by split; [|eexists]|].
    split; [by intros [? [=]] | done].
  - rewrite (omap_keys _ cf_file _ (changedAt_file _ _)).
    apply filter_ext_elem. intros key Hkey. apply Hset in Hkey.
    rewrite changedAt_empty by done. apply ownGet_is_Some in Hkey as [s ->].
    destruct (decide (ordinary key)); simpl; [|by split; [|eexists]].
    split; [by intros [? [=]] | done].
  - apply omap_nothing. intros key Hkey. apply removedAt_empty. by apply Hset.
  - apply filter_everything.
  - done.
  - intros Hord. rewrite Forall_forall in Hord. split.
    + apply omap_pointwise. intros key Hkey. apply Hset in Hkey.
      rewrite newAt_empty by done. by rewrite decide_True by by apply Hord.
    + apply omap_nothing. intros key Hkey. apply Hset in Hkey.
      rewrite changedAt_empty by done. by rewrite decide_True by by apply Hord.
  - intros Hord. rewrite Forall_forall in Hord.
    apply omap_pointwise. intros key Hkey. apply Hset in Hkey.
    apply pageChangeAt_empty; [done | by apply Hord].
Qed.




End EmptyPrevious.

(** The keys of the compat document: [__global], and the pages. *)
Lemma spread_keys {A : Type} (entries acc : list (string * A)) (k : string) :
  k ∈ (fold_left (fun acc entry => ownSet entry.1 entry.2 acc) entries acc).*1
  ↔ k ∈ acc.*1 ∨ k ∈ entries.*1.
Proof.
  revert acc. induction entries as [|[k0 v0] entries IH]; intros acc.
  { simpl. rewrite elem_of_nil. tauto. }
  cbn [fold_left]. rewrite IH, elem_of_ownSet_keys.
  csimpl. rewrite elem_of_cons. tauto.
Qed.

Lemma compatJson_keys (g : SizeEntry) (pages : obj SizeEntry) (k : string) :
  k ∈ objKeys (compatJson g pages) ↔ k = "__global" ∨ k ∈ objKeys pages.
Proof.
  unfold compatJson, objKeys. simpl. rewrite spread_keys.
  csimpl. by rewrite list_elem_of_singleton.
Qed.

Lemma absent_key_reads_empty (doc : obj SizeEntry) (name : string)
    (fallback : part) :
  name ∉ objKeys doc →
  orElse (optRead (Some (parsedSizes doc)) name) fallback = fallback.
Proof.
  intros Hname. apply ownGet_None in Hname.
  unfold optRead. by rewrite read_parsedSizes, Hname.
Qed.




(** C4, with the provisos on names.  Provided no page identifier of the
    manifest is [__files], [__pages] or [__routes], the compat document a
    run persists has as keys [__global] and the page identifiers (a page
    named [__proto__] has no key), so that a diff reading it as the previous
    analysis finds no detail; and provided no file or page key of the
    current snapshot names a member of [Object.prototype], the previous
    file map is empty with every current file new and none removed or
    changed, every previous page total reads as [{raw: 0, gzip: 0}], and
    the previous route set is empty with every current route new and none
    removed, whatever the earlier run measured.  This holds in particular
    for the diff of any later run that reads the document back from
    [analysisPath]. *)
Theorem compat_previous_carries_no_detail {earlier : Node}
    (m : Manifests) (curr : Output) :
  "__files" ∉ (appDirPages m).*1 →
  "__pages" ∉ (appDirPages m).*1 →
  "__routes" ∉ (appDirPages m).*1 →
  Forall ordinary (objKeys (__files curr)) →
  Forall ordinary (objKeys (__pages curr)) →
  (∀ k, k ∈ objKeys (compatWritten (report m))
        ↔ k = "__global" ∨ (k ∈ (appDirPages m).*1 ∧ k ≠ "__proto__")) ∧
  readsNoDetail (compatWritten (report m)) curr ∧
  removedFiles (logDiffs (Some (parsedSizes (compatWritten (report m)))) curr)
  = [] ∧
  changedFiles (logDiffs (Some (parsedSizes (compatWritten (report m)))) curr)
  = [] ∧
  pageChanges (logDiffs (Some (parsedSizes (compatWritten (report m)))) curr)
  = pagesAgainstZero (__pages curr) ∧
  removedRoutes (logDiffs (Some (parsedSizes (compatWritten (report m)))) curr)
  = [] ∧
  (∀ (later : Node) (m' : Manifests),
     @previousAnalysis later
     = Some (parsedSizes (compatWritten (@report earlier m))) →
     Forall ordinary (objKeys (__files (outputJson (@report later m')))) →
     Forall ordinary (objKeys (__pages (outputJson (@report later m')))) →
     newFiles (diffs (@report later m'))
     = allNew (__files (outputJson (@report later m'))) ∧
     removedFiles (diffs (@report later m')) = [] ∧
     changedFiles (diffs (@report later m')) = [] ∧
     pageChanges (diffs (@report later m'))
     = pagesAgainstZero (__pages (outputJson (@report later m'))) ∧
     newRoutes (diffs (@report later m'))
     = setOf (objKeys (__routes (outputJson (@report later m')))) ∧
     removedRoutes (diffs (@report later m')) = []).
Proof.
  intros Hfiles Hpages Hroutes Hordf Hordp.
  assert (∀ k, k ∈ objKeys (compatWritten (report m))
               ↔ k = "__global" ∨ (k ∈ (appDirPages m).*1 ∧ k ≠ "__proto__"))
    as Hkeys.
  { intros k. cbn [compatWritten report].
    rewrite compatJson_keys. by rewrite <- (report_page_keys m k). }
  assert (∀ name, name ≠ "__global" → name ∉ (appDirPages m).*1 →
                  name ∉ objKeys (compatWritten (report m))) as Hfresh.
  { intros name Hne Hname Hin. apply Hkeys in Hin as [?|[? _]]; done. }
  pose proof (Hfresh "__files" ltac:(done) Hfiles) as Hf.
  pose proof (Hfresh "__pages" ltac:(done) Hpages) as Hp.
  pose proof (Hfresh "__routes" ltac:(done) Hroutes) as Hr.
  destruct (empty_previous_passes
              (Some (parsedSizes (compatWritten (report m)))) curr
              (absent_key_reads_empty _ _ _ Hf)
              (absent_key_reads_empty _ _ _ Hp)
              (absent_key_reads_empty _ _ _ Hr))
    as (_ & _ & Hrm & Hrt & Hgone & Hnew & Hpg).
  destruct (Hnew Hordf) as [Hall Hnone].
  split_and!; try done.
  - unfold readsNoDetail. split_and!; try done.
    + by apply absent_key_reads_empty.
    + intros key Hkey. rewrite absent_key_reads_empty by done.
      rewrite Forall_forall in Hordp.
      rewrite lookup_empty_object, decide_False; [done|]. by apply Hordp.
    + by apply absent_key_reads_empty.
  - by apply Hpg.
  - intros later m' Hread Hordf' Hordp'.
    change (diffs (@report later m'))
      with (logDiffs (@previousAnalysis later) (outputJson (@report later m'))).
    rewrite Hread.
    destruct (empty_previous_passes
                (Some (parsedSizes (compatWritten (report m))))
                (outputJson (@report later m'))
                (absent_key_reads_empty _ _ _ Hf)
                (absent_key_reads_empty _ _ _ Hp)
                (absent_key_reads_empty _ _ _ Hr))
      as (_ & _ & Hrm' & Hrt' & Hgone' & Hnew' & Hpg').
    destruct (Hnew' Hordf') as [Hall' Hnone'].
    split_and!; try done. by apply Hpg'.
Qed.

Lemma compat_previous_carries_no_detail_witness :
  ("__files" ∉ (appDirPages demoManifests).*1) ∧
  ("__pages" ∉ (appDirPages demoManifests).*1) ∧
  ("__routes" ∉ (appDirPages demoManifests).*1) ∧
  Forall ordinary (objKeys (__files scenarioCurrent)) ∧
  Forall ordinary (objKeys (__pages scenarioCurrent)) ∧
  readsNoDetail (compatWritten (@report demoNode demoManifests)) scenarioCurrent.
Proof.
  split; [by compute_done|]. split; [by compute_done|]. split; [by compute_done|].
  split; [by compute_done|]. split; [by compute_done|].
  apply (@compat_previous_carries_no_detail demoNode demoManifests
           scenarioCurrent); by compute_done.
Defined.

(** C4 as stated fails when a page identifier is [__files]: the compat
    document then has a [__files] key, and the next diff reads the size
    entry of that page as the previous file map, reporting its fields
    [raw] and [gzip] as removed files.  A page named [__proto__] has no
    key in the compat document.  The claim also fails, whatever the pages
    are called, for a current file named as a member of [Object.prototype]:
    against the compat document of the run on [demoManifests], the file
    [constructor] is listed as changed and not as new. *)
Lemma compat_document_with_page_named_files :
  "__files" ∈ objKeys (compatWritten (@report demoNode reservedManifests)) ∧
  removedFiles
    (logDiffs
       (Some (parsedSizes (compatWritten (@report demoNode reservedManifests))))
       (outputJson (@report demoNode reservedManifests)))
  = [{| rf_file := "raw"; rf_prev := Val (ENum 4) |};
     {| rf_file := "gzip"; rf_prev := Val (ENum 2) |}] ∧
  ¬ readsNoDetail (compatWritten (@report demoNode reservedManifests))
                  (outputJson (@report demoNode reservedManifests)) ∧
  "__proto__" ∈ (appDirPages unusualManifests).*1 ∧
  objKeys (compatWritten (@report demoNode unusualManifests))
  = ["2"; "10"; "__global"; "/page"] ∧
  cf_file <$>
    changedFiles
      (logDiffs
         (Some (parsedSizes (compatWritten (@report demoNode demoManifests))))
         inheritedCurrent)
  = ["constructor"] ∧
  ¬ readsNoDetail (compatWritten (@report demoNode demoManifests))
                  inheritedCurrent.
Proof.
  assert ("__files"
            ∈ objKeys (compatWritten (@report demoNode reservedManifests)))
    as Hin by by compute_done.
  split_and!;
    [done | by vm_compute | | by compute_done | by vm_compute | by vm_compute |].
  - intros (Hno & _). done.
  - intros (_ & _ & _ & _ & Hnew & _). by vm_compute in Hnew.
Qed.

(** ** RouteResolver *)

Section ResolveFacts.
Context `{Node}.

Lemma firstExisting_app (l1 l2 : list string) :
  firstExisting (l1 ++ l2)
  = match firstExisting l1 with
    | Some candidate => Some candidate
    | None => firstExisting l2
    end.
Proof.
  induction l1 as [|c l1 IH]; simpl; [done|]. by destruct (existsSync c).
Qed.

Lemma firstExisting_at (l : list string) (i : nat) (candidate : string) :
  l !! i = Some candidate →
  existsSync candidate = true →
  (∀ j earlier, j < i → l !! j = Some earlier → existsSync earlier = false) →
  firstExisting l = Some candidate.
Proof.
  revert i. induction l as [|c l IH]; intros i Hi Hex Hbefore; [done|].
  destruct i as [|i]; simpl in *.
  - simplify_eq. by rewrite Hex.
  - rewrite (Hbefore 0 c) by (lia || done).
    apply (IH i); [done..|].
    intros j earlier Hj Hearlier. apply (Hbefore (S j)); [lia | done].
Qed.

Lemma firstExisting_None (l : list string) :
  firstExisting l = None ↔ ∀ candidate, candidate ∈ l → existsSync candidate = false.
Proof.
  induction l as [|c l IH]; simpl.
  - split; [|done]. intros _ ? Hin. by apply elem_of_nil in Hin.
  - destruct (existsSync c) eqn:Hc.
    + split; [done|]. intros Hall. specialize (Hall c). rewrite Hc in Hall.
      discriminate Hall. left.
    + rewrite IH. split.
      * intros Hall x Hx. apply elem_of_cons in Hx as [->|Hx]; [done | by apply Hall].
      * intros Hall x Hx. apply Hall. by right.
Qed.

Lemma resolveSourceFile_candidates (sourceLike : string) :
  resolveSourceFile sourceLike
  = path_relative cwd <$> firstExisting (candidatesInOrder sourceLike).
Proof.
  unfold resolveSourceFile.
  change (candidatesInOrder sourceLike)
    with (map (fun ext => path_join
                 [cwd; path_join ["app"; stripLeadingSlash sourceLike]
                         +:+ "." +:+ ext]) exts
          ++ map (fun ext => path_join
                    [cwd; path_join ["app"; stripLeadingSlash sourceLike]
                            +:+ "/route." +:+ ext]) exts).
  rewrite firstExisting_app.
  destruct (firstExisting (map _ exts)); [done|].
  by destruct (firstExisting (map _ exts)).
Qed.

End ResolveFacts.

(** C9.  [resolveSourceFile] probes the page-level path with the extensions
    tsx, ts, jsx, js, mdx in that order, then [route.<ext>] under the path
    in the same order, and returns (relative to the working directory) the
    first candidate that exists: a candidate that exists while none before
    it does is the result, and the result is [null] exactly when no
    candidate exists. *)
Theorem resolve_first_existing_candidate `{Node} (sourceLike : string) :
  resolveSourceFile sourceLike
  = path_relative cwd <$> firstExisting (candidatesInOrder sourceLike) ∧
  (∀ i candidate,
     candidatesInOrder sourceLike !! i = Some candidate →
     existsSync candidate = true →
     (∀ j earlier, j < i → candidatesInOrder sourceLike !! j = Some earlier →
                   existsSync earlier = false) →
     resolveSourceFile sourceLike = Some (path_relative cwd candidate)) ∧
  (resolveSourceFile sourceLike = None
   ↔ ∀ candidate, candidate ∈ candidatesInOrder sourceLike →
                  existsSync candidate = false).
Proof.
  rewrite resolveSourceFile_candidates. split_and!.
  - done.
  - intros i candidate Hi Hex Hbefore.
    by rewrite (firstExisting_at _ i candidate).
  - rewrite <- firstExisting_None.
    by destruct (firstExisting (candidatesInOrder sourceLike)).
Qed.

Lemma resolve_first_existing_candidate_witness :
  @resolveSourceFile demoNode "/about/page" = Some "/w/app/about/page.ts" ∧
  @resolveSourceFile demoNode "/api" = Some "/w/app/api/route.js".
Proof.
  split.
  - apply (proj1 (proj2 (@resolve_first_existing_candidate demoNode
                           "/about/page")) 1 "/w/app/about/page.ts");
      [reflexivity | reflexivity |].
    intros [|j] earlier Hj; [|lia]. by intros [= <-].
  - apply (proj1 (proj2 (@resolve_first_existing_candidate demoNode "/api"))
             8 "/w/app/api/route.js"); [reflexivity | reflexivity |].
    intros j earlier Hj Hearlier.
    do 8 (destruct j as [|j]; [by injection Hearlier as <-|]). lia.
Defined.

(** ** The review-comment script *)

Section CommentFacts.
Import Comment.



End CommentFacts.





(** ** Ordering of the changed-files listings *)

Section SortFacts.
Context {A : Type} (cmp : A → A → jsnum).

Lemma insertSorted_Permutation (x : A) (l : list A) :
  insertSorted cmp x l ≡ₚ x :: l.
Proof.
  induction l as [|y l IH]; simpl; [done|].
  destruct (sortsAfter cmp x y); [|done].
  rewrite IH. apply Permutation_swap.
Qed.

Lemma stableSort_Permutation (l : list A) : stableSort cmp l ≡ₚ l.
Proof.
  induction l as [|x l IH]; simpl; [done|].
  by rewrite insertSorted_Permutation, IH.
Qed.

(** Whatever the comparator, the array holds the same elements after the
    sort. *)
Lemma arraySort_Permutation (l : list A) : elements (arraySort cmp l) ≡ₚ l.
Proof.
  unfold arraySort. destruct (consistentOn cmp l); simpl; [|done].
  apply stableSort_Permutation.
Qed.

(** Sortedness, for a relation the comparator decides on the rows [P]. *)
Context (R : A → A → Prop) (P : A → Prop).
Hypothesis decides_le : ∀ x y, P x → P y → sortsAfter cmp x y = false → R x y.
Hypothesis decides_gt : ∀ x y, P x → P y → sortsAfter cmp x y = true → R y x.
Hypothesis R_trans : ∀ x y z, R x y → R y z → R x z.



(** Stability: rows of one class [Q], which the comparator never orders
    strictly, keep their relative order. *)
Context (Q : A → Prop) `{∀ x, Decision (Q x)}.
Hypothesis never_within : ∀ x y, Q x → Q y → sortsAfter cmp x y = false.



End SortFacts.


Lemma forallb_elem {A : Type} (f : A → bool) (l : list A) (x : A) :
  forallb f l = true → x ∈ l → f x = true.
Proof.
  induction l as [|y l IH]; simpl; intros Hall Hin.
  { by apply elem_of_nil in Hin. }
  apply andb_true_iff in Hall as [Hy Hl].
  apply elem_of_cons in Hin as [->|Hin]; [done | by apply IH].
Qed.

Section ChangedRows.
Import Comment.








(** A row with a NaN comparison against itself makes the comparator
    inconsistent. *)
Lemma compareChanged_inconsistent (l : list ChangedRow) (row : ChangedRow) :
  row ∈ l → compareChanged row row = None →
  consistentOn compareChanged l = false.
Proof.
  intros Hin Hnan. apply not_true_is_false. intros Hall.
  unfold consistentOn in Hall.
  pose proof (forallb_elem _ _ _ Hall Hin) as Ha.
  pose proof (forallb_elem _ _ _ Ha Hin) as Hb.
  pose proof (forallb_elem _ _ _ Hb Hin) as Hc.
  unfold consistentAt in Hc. rewrite Hnan in Hc. done.
Qed.


End ChangedRows.





(** * Part III: further properties of the code *)

(** ** The cache and the read trace *)

Section CacheFacts.
Context `{Node}.
Implicit Types (st : Runtime) (scriptPath p : string) (calls : list string).

Lemma getScriptSize_keys st scriptPath p :
  is_Some (memoryCache (getScriptSize scriptPath st).2 !! p)
  ↔ is_Some (memoryCache st !! p) ∨ p = path_join [nextMetaRoot; scriptPath].
Proof.
  unfold getScriptSize.
  destruct (memoryCache st !! path_join [nextMetaRoot; scriptPath])
    as [[r g]|] eqn:Hc; simpl.
  - split; [by left|]. intros [?| ->]; [done | by rewrite Hc].
  - destruct (fs _); simpl; rewrite lookup_insert_is_Some;
      (split; [intros [<-|[_ ?]]; [by right | by left]|]);
      (intros [Hs| ->]; [|by left]);
      (destruct (decide (path_join [nextMetaRoot; scriptPath] = p));
         [by left | by right]).
Qed.

Lemma afterCalls_keys calls st p :
  is_Some (memoryCache (afterCalls calls st) !! p)
  ↔ is_Some (memoryCache st !! p)
    ∨ p ∈ (fun scriptPath => path_join [nextMetaRoot; scriptPath]) <$> calls.
Proof.
  revert st. induction calls as [|c calls IH]; intros st; csimpl.
  - rewrite elem_of_nil. tauto.
  - rewrite IH, getScriptSize_keys, elem_of_cons. tauto.
Qed.

Lemma getScriptSize_reads st scriptPath :
  (∀ p, p ∈ reads st ↔ is_Some (memoryCache st !! p) ∧ is_Some (fs p)) →
  ∀ p, p ∈ reads (getScriptSize scriptPath st).2
       ↔ is_Some (memoryCache (getScriptSize scriptPath st).2 !! p)
         ∧ is_Some (fs p).
Proof.
  intros Hinv p. rewrite getScriptSize_keys. unfold getScriptSize.
  destruct (memoryCache st !! path_join [nextMetaRoot; scriptPath])
    as [[r g]|] eqn:Hc; simpl.
  - rewrite Hinv. split; [tauto|]. intros [[?| ->] ?]; [done|].
    split; [by rewrite Hc | done].
  - destruct (fs (path_join [nextMetaRoot; scriptPath])) as [text|] eqn:Hfs;
      simpl.
    + rewrite elem_of_app, list_elem_of_singleton, Hinv.
      split; [intros [[??]| ->]; [tauto | split; [by right | by rewrite Hfs]]|].
      tauto.
    + rewrite Hinv. split; [tauto|]. intros [[?| ->] Hp]; [done|].
      rewrite Hfs in Hp. by destruct Hp.
Qed.

Lemma afterCalls_reads calls st :
  (∀ p, p ∈ reads st ↔ is_Some (memoryCache st !! p) ∧ is_Some (fs p)) →
  ∀ p, p ∈ reads (afterCalls calls st)
       ↔ is_Some (memoryCache (afterCalls calls st) !! p) ∧ is_Some (fs p).
Proof.
  revert st. induction calls as [|c calls IH]; intros st Hinv; [done|].
  simpl. apply IH. by apply getScriptSize_reads.
Qed.

Lemma sumMeasured_app (l1 l2 : list string) :
  sumMeasured (l1 ++ l2) = addSize (sumMeasured l1) (sumMeasured l2).
Proof.
  induction l1 as [|x l1 IH]; simpl.
  - by rewrite addSize_zero_l.
  - rewrite IH. unfold addSize. simpl. f_equal; lia.
Qed.

Lemma sumMeasured_replicate (n : nat) (scriptPath : string) :
  sumMeasured (replicate n scriptPath)
  = {| raw := Z.of_nat n * (measure scriptPath).1;
       gzip := Z.of_nat n * (measure scriptPath).2 |}.
Proof.
  induction n as [|n IH]; [done|].
  cbn [replicate sumMeasured foldr]. fold (sumMeasured (replicate n scriptPath)).
  rewrite IH. unfold addSize, sizeOfPair. simpl. f_equal; lia.
Qed.

End CacheFacts.

(** X1.  The cache is transparent: at any point of a run, whatever was
    measured before, [getScriptSize] returns what the store holds for the
    path ([[0, 0]] for a missing file, the byte length and gzip size of its
    text otherwise), and every cached pair is the measurement of its key. *)
Theorem cache_is_transparent `{Node} (calls : list string) (scriptPath : string) :
  (getScriptSize scriptPath (afterCalls calls initial)).1 = measure scriptPath ∧
  (∀ p v, memoryCache (afterCalls calls initial) !! p = Some v →
          v = measureResolved p) ∧
  (∀ p, is_Some (memoryCache (afterCalls calls initial) !! p)
        ↔ p ∈ (fun s => path_join [nextMetaRoot; s]) <$> calls).
Proof.
  pose proof (afterCalls_coherent calls initial initial_coherent) as Hco.
  split_and!.
  - by destruct (getScriptSize_coherent _ scriptPath Hco) as [_ ->].
  - by destruct Hco as (Hval & _).
  - intros p. rewrite afterCalls_keys. simpl. rewrite lookup_empty.
    split; [intros [[? [=]]|?]; done | by right].
Qed.

(** X2.  A path is read and compressed exactly when it was requested and
    exists: after any sequence of measurements the read trace holds, once
    each, the resolved paths that were requested and exist in the store; a
    missing file is never read. *)
Theorem existing_requested_files_read_once `{Node} (calls : list string) :
  NoDup (reads (afterCalls calls initial)) ∧
  ∀ p, p ∈ reads (afterCalls calls initial)
       ↔ p ∈ (fun s => path_join [nextMetaRoot; s]) <$> calls ∧ is_Some (fs p).
Proof.
  split.
  - by destruct (afterCalls_coherent calls initial initial_coherent)
      as (_ & Hnd & _).
  - intros p. rewrite afterCalls_reads.
    + rewrite afterCalls_keys. simpl. rewrite lookup_empty.
      split; [intros [[[? [=]]|?] ?]; done | intros [??]; split; [by right|done]].
    + intros q. simpl. rewrite lookup_empty, elem_of_nil.
      split; [done | by intros [[? [=]] _]].
Qed.

(** X3.  [getScriptSizes] adds the measurement of every occurrence: the
    cache saves reads, not bytes.  At any point of a run the total of a
    list is the sum over its elements, the total of a concatenation is the
    sum of the totals, and a path listed [n] times counts [n] times. *)
Theorem script_sizes_add_every_occurrence `{Node}
    (calls paths more : list string) (n : nat) (scriptPath : string) :
  (getScriptSizes paths (afterCalls calls initial)).1 = sumMeasured paths ∧
  (getScriptSizes (paths ++ more) (afterCalls calls initial)).1
  = addSize (getScriptSizes paths (afterCalls calls initial)).1
            (getScriptSizes more (afterCalls calls initial)).1 ∧
  (getScriptSizes (replicate n scriptPath) (afterCalls calls initial)).1
  = {| raw := Z.of_nat n * (measure scriptPath).1;
       gzip := Z.of_nat n * (measure scriptPath).2 |}.
Proof.
  pose proof (afterCalls_coherent calls initial initial_coherent) as Hco.
  destruct (getScriptSizes_spec paths _ Hco) as [_ ->].
  destruct (getScriptSizes_spec more _ Hco) as [_ ->].
  destruct (getScriptSizes_spec (paths ++ more) _ Hco) as [_ ->].
  destruct (getScriptSizes_spec (replicate n scriptPath) _ Hco) as [_ ->].
  split_and!; [done | apply sumMeasured_app | apply sumMeasured_replicate].
Qed.

(** ** The snapshot of a run *)

Lemma setAdd_fold_fresh (l acc : list string) :
  NoDup (acc ++ l) → fold_left setAdd l acc = acc ++ l.
Proof.
  revert acc. induction l as [|y l IH]; intros acc Hnd; simpl.
  - by rewrite app_nil_r.
  - assert (y ∉ acc) as Hy.
    { apply NoDup_app in Hnd as (_ & Hdisj & _).
      intros Hin. apply (Hdisj y Hin). left. }
    replace (setAdd acc y) with (acc ++ [y])
      by (unfold setAdd; by rewrite decide_False).
    rewrite IH; rewrite <- app_assoc; done.
Qed.

Lemma setOf_NoDup (l : list string) : NoDup l → setOf l = l.
Proof. intros Hnd. unfold setOf. by rewrite setAdd_fold_fresh. Qed.

Lemma setOf_setOf (l : list string) : setOf (setOf l) = setOf l.
Proof. apply setOf_NoDup, NoDup_setOf. Qed.

Section SnapshotFacts.
Context `{Node}.
Implicit Types (st : Runtime) (m : Manifests).

Lemma fileSizeStep_fold_key_list (files : list string) (acc : obj SizeEntry) st :
  Forall plainKey files →
  objKeys (fold_left fileSizeStep files (acc, st)).1
  = fold_left setAdd files (objKeys acc).
Proof.
  revert acc st. induction files as [|x files IH]; intros acc st Hplain; [done|].
  apply Forall_cons in Hplain as [Hx Hplain].
  cbn [fold_left]. by rewrite fileSizeStep_unfold, IH, objKeys_objSet_plain.
Qed.

Lemma pageStep_fold_key_list (G : list string)
    (pages : list (string * list string)) (acc : obj SizeEntry) st :
  Forall plainKey pages.*1 →
  objKeys (fold_left (pageStep G) pages (acc, st)).1
  = fold_left setAdd pages.*1 (objKeys acc).
Proof.
  revert acc st. induction pages as [|[k0 paths0] pages IH]; intros acc st Hplain;
    [done|].
  csimpl in Hplain. apply Forall_cons in Hplain as [Hx Hplain].
  cbn [fold_left]. by rewrite pageStep_unfold, IH, objKeys_objSet_plain.
Qed.

Lemma report_global m :
  __global (outputJson (report m)) = sumMeasured (globalAppDirBundle m).
Proof.
  cbn [__global outputJson report].
  by destruct (getScriptSizes_spec (globalAppDirBundle m) initial
                 initial_coherent) as [_ ->].
Qed.

Lemma elem_of_allFiles m (file : string) :
  file ∈ allFiles m
  ↔ file ∈ globalAppDirBundle m
    ∨ ∃ pagePath scriptPaths,
        (pagePath, scriptPaths) ∈ appDirPages m ∧ file ∈ scriptPaths.
Proof.
  unfold allFiles. rewrite elem_of_setOf, elem_of_app.
  assert (file ∈ concat (appDirPages m).*2
          ↔ ∃ pagePath scriptPaths,
              (pagePath, scriptPaths) ∈ appDirPages m ∧ file ∈ scriptPaths)
    as ->; [|done].
  induction (appDirPages m) as [|[k paths] pages IH]; csimpl.
  - rewrite elem_of_nil. split; [done|]. intros (? & ? & Hin & _).
    by apply elem_of_nil in Hin.
  - rewrite elem_of_app, IH. split.
    + intros [Hin|(k' & paths' & Hmem & Hin)].
      * exists k, paths. split; [left | done].
      * exists k', paths'. split; [by right | done].
    + intros (k' & paths' & Hmem & Hin).
      apply elem_of_cons in Hmem as [Heq|Hmem].
      * simplify_eq. by left.
      * right. by exists k', paths'.
Qed.

End SnapshotFacts.

(** X4.  The snapshot has one [__files] entry for every path the manifests
    reference and for no other: a path is a key of [__files] exactly when
    the global list or a page lists it, the path [__proto__] apart, which
    an assignment stores as the prototype; no key is repeated; every
    referenced path reads as the measurement of the path; and when no path
    is an array index or [__proto__], the keys are the paths of the global
    list followed by those of the pages, in order of first occurrence. *)
Theorem snapshot_files_cover_every_reference `{Node} (m : Manifests) :
  (∀ file,
     file ∈ objKeys (__files (outputJson (report m)))
     ↔ (file ∈ globalAppDirBundle m
        ∨ ∃ pagePath scriptPaths,
            (pagePath, scriptPaths) ∈ appDirPages m ∧ file ∈ scriptPaths)
       ∧ file ≠ "__proto__") ∧
  NoDup (objKeys (__files (outputJson (report m)))) ∧
  (∀ file,
     file ∈ allFiles m →
     objGet (__files (outputJson (report m))) file
     = Some (sizeOfPair (measure file))) ∧
  (Forall plainKey (allFiles m) →
   objKeys (__files (outputJson (report m))) = allFiles m).
Proof.
  split_and!.
  - intros file. by rewrite report_file_keys, elem_of_allFiles.
  - apply report_files_shape.
  - intros file. apply report_file.
  - intros Hplain. cbn [__files outputJson report]. unfold fileSizes.
    rewrite fileSizeStep_fold_key_list by done. apply setOf_setOf.
Qed.

Lemma omap_total_length {A B : Type} (f : A → option B) (l : list A) :
  (∀ x, x ∈ l → is_Some (f x)) → length (omap f l) = length l.
Proof.
  induction l as [|x l IH]; intros Hall; [done|]. csimpl.
  destruct (Hall x) as [y ->]; [left|]. simpl. f_equal. apply IH.
  intros z Hz. apply Hall. by right.
Qed.

Lemma usedSizes_measured `{Node} (G : list string) :
  usedSizes ((fun f => {| u_file := f; u_raw := Some (measure f).1;
                          u_gzip := Some (measure f).2 |}) <$> G)
  = Some ((fun f => sizeOfPair (measure f)) <$> G).
Proof.
  induction G as [|f G IH]; [done|].
  csimpl. by rewrite IH.
Qed.

Lemma uses_measured `{Node} (m : Manifests) :
  (fun f =>
     let sz := orElse (sizeLookup (__files (outputJson (report m))) f)
                      (Val zeroEntry) in
     {| u_file := f; u_raw := rawOf sz; u_gzip := gzipOf sz |})
    <$> __rootMainFiles (outputJson (report m))
  = (fun f => {| u_file := f; u_raw := Some (measure f).1;
                 u_gzip := Some (measure f).2 |}) <$> globalAppDirBundle m.
Proof.
  change (__rootMainFiles (outputJson (report m))) with (globalAppDirBundle m).
  apply list_fmap_ext. intros i f Hf.
  assert (f ∈ allFiles m) as Hin.
  { apply elem_of_allFiles. left. by apply list_elem_of_lookup_2 in Hf. }
  cbn zeta. by rewrite (sizeLookup_objGet _ _ _ (report_file m f Hin)).
Qed.

Lemma totalSize_measured `{Node} (G : list string) :
  totalSize ((fun f => sizeOfPair (measure f)) <$> G) = sumMeasured G.
Proof. induction G as [|f G IH]; [done|]. csimpl. by rewrite IH. Qed.

(** X5.  For the snapshot of a run, [logDiffs] prints one report for each
    new route and drops none; each report lists every entry of the global
    file list, in order and with repetitions, with its measured size (the
    fallback [{ raw: 0, gzip: 0 }] is never used), so that the sizes listed
    under a new route add up to the global total [__global]. *)
Theorem new_page_uses_add_up_to_global `{Node} (m : Manifests) :
  length (newPageReports (outputJson (report m)) (newRoutes (diffs (report m))))
  = length (newRoutes (diffs (report m))) ∧
  ∀ routes page,
    page ∈ newPageReports (outputJson (report m)) routes →
    np_uses page
    = (fun f => {| u_file := f; u_raw := Some (measure f).1;
                   u_gzip := Some (measure f).2 |}) <$> globalAppDirBundle m ∧
    totalSize <$> usedSizes (np_uses page)
    = Some (__global (outputJson (report m))).
Proof.
  split.
  - apply omap_total_length. intros r Hr.
    change (diffs (report m))
      with (logDiffs previousAnalysis (outputJson (report m))) in Hr.
    cbn [newRoutes logDiffs] in Hr.
    apply list_elem_of_filter in Hr as [_ Hr].
    rewrite elem_of_setOf in Hr. apply ownGet_is_Some in Hr as [info Hinfo].
    rewrite (objGet_own _ _ _ Hinfo). by eexists.
  - intros routes page Hpage.
    assert (np_uses page
            = (fun f => {| u_file := f; u_raw := Some (measure f).1;
                           u_gzip := Some (measure f).2 |})
                <$> globalAppDirBundle m) as Huses.
    { apply list_elem_of_omap in Hpage as (r & _ & Hpage).
      destruct (objGet (__routes (outputJson (report m))) r) as [info|];
        [|done].
      injection Hpage as <-. apply uses_measured. }
    split; [done|].
    by rewrite Huses, usedSizes_measured, report_global, <- totalSize_measured.
Qed.

Lemma filter_out_all (G l : list string) :
  Forall (fun scriptPath => scriptPath ∈ G) l →
  filter (fun scriptPath => scriptPath ∉ G) l = [].
Proof.
  induction 1 as [|x l Hx Hl IH]; [done|].
  rewrite filter_cons_False; [done | by intros Hnot].
Qed.

(** X6.  The page totals follow the manifest: with distinct page
    identifiers, a page identifier is a key of [__pages] unless it is
    [__proto__]; when no identifier is an array index or [__proto__],
    [__pages] has the identifiers of the manifest in the same order; and a
    page all of whose scripts are in the global list (an empty list
    included) has the total [{ raw: 0, gzip: 0 }]. *)
Theorem page_totals_follow_manifest `{Node} (m : Manifests) :
  NoDup (appDirPages m).*1 →
  (∀ k, k ∈ objKeys (__pages (outputJson (report m)))
        ↔ k ∈ (appDirPages m).*1 ∧ k ≠ "__proto__") ∧
  (Forall plainKey (appDirPages m).*1 →
   objKeys (__pages (outputJson (report m))) = (appDirPages m).*1) ∧
  ∀ pagePath scriptPaths,
    (pagePath, scriptPaths) ∈ appDirPages m →
    Forall (fun scriptPath => scriptPath ∈ globalAppDirBundle m) scriptPaths →
    objGet (__pages (outputJson (report m))) pagePath = Some zeroSize.
Proof.
  intros Hnd. split_and!.
  - apply report_page_keys.
  - intros Hplain. cbn [__pages outputJson report]. unfold allAppDirSizes.
    rewrite pageStep_fold_key_list by done. by apply setOf_NoDup.
  - intros pagePath scriptPaths Hin Hall.
    rewrite (report_page m pagePath scriptPaths Hnd Hin).
    by rewrite filter_out_all.
Qed.

Lemma page_totals_follow_manifest_witness :
  NoDup (appDirPages demoManifests).*1 ∧
  Forall plainKey (appDirPages demoManifests).*1 ∧
  objKeys (__pages (outputJson (@report demoNode demoManifests)))
  = ["/page"; "/about/page"].
Proof.
  assert (Forall plainKey (appDirPages demoManifests).*1) as Hplain.
  { repeat (apply Forall_cons; split; [by split|]). constructor. }
  split; [by compute_done|]. split; [exact Hplain|].
  apply (@page_totals_follow_manifest demoNode demoManifests);
    [by compute_done | exact Hplain].
Defined.

(** ** The compat document and the route map *)

Lemma spread_lookup {A : Type} (entries acc : list (string * A)) (k : string) :
  NoDup entries.*1 →
  ownGet (fold_left (fun acc entry => ownSet entry.1 entry.2 acc) entries acc) k
  = match ownGet entries k with
    | Some v => Some v
    | None => ownGet acc k
    end.
Proof.
  revert acc.
  induction entries as [|[k0 v0] entries IH]; intros acc Hnd; [done|].
  csimpl in Hnd. apply NoDup_cons in Hnd as [Hfresh Hnd].
  cbn [fold_left ownGet fst snd]. rewrite IH by done.
  destruct (decide (k0 = k)) as [->|Hne].
  - apply ownGet_None in Hfresh. by rewrite Hfresh, ownGet_ownSet_eq.
  - destruct (ownGet entries k); [done|]. by apply ownGet_ownSet_ne.
Qed.

Lemma spread_fresh {A : Type} (entries acc : list (string * A)) :
  Forall (fun k => arrayIndex k = None) entries.*1 →
  NoDup (acc.*1 ++ entries.*1) →
  fold_left (fun acc entry => ownSet entry.1 entry.2 acc) entries acc
  = acc ++ entries.
Proof.
  revert acc.
  induction entries as [|[k0 v0] entries IH]; intros acc Hplain Hnd.
  - by rewrite app_nil_r.
  - cbn [fold_left fst snd]. csimpl in Hnd. csimpl in Hplain.
    apply Forall_cons in Hplain as [Hk0 Hplain].
    assert (k0 ∉ acc.*1) as Hfresh.
    { apply NoDup_app in Hnd as (_ & Hdisj & _).
      intros Hin. apply (Hdisj k0 Hin). left. }
    rewrite ownSet_fresh_plain by done. rewrite IH.
    + by rewrite <- app_assoc.
    + done.
    + rewrite fmap_app. csimpl. by rewrite <- app_assoc.
Qed.

(** X7.  The compat document is the page map with [__global] put first:
    with distinct page identifiers, a key reads as its page total if it is a
    key of the page map, as the global total if it is [__global], and is
    absent otherwise; so a page named [__global] replaces the global total,
    and when no page has that name and none is an array index, the document
    is [__global] followed by the pages in their order. *)
Theorem compat_document_shape (globalSizes : SizeEntry) (pages : obj SizeEntry) :
  NoDup (objKeys pages) →
  (∀ k, objGet (compatJson globalSizes pages) k
        = match ownGet (own pages) k with
          | Some total => Some total
          | None => if decide (k = "__global") then Some globalSizes else None
          end) ∧
  ("__global" ∉ objKeys pages →
   Forall (fun k => arrayIndex k = None) (objKeys pages) →
   own (compatJson globalSizes pages) = ("__global", globalSizes) :: own pages).
Proof.
  intros Hnd. split.
  - intros k. unfold compatJson, objGet. cbn [own proto].
    rewrite spread_lookup by done.
    destruct (ownGet (own pages) k); [done|]. simpl.
    destruct (decide ("__global" = k)) as [<-|Hne].
    + by rewrite decide_True.
    + rewrite (decide_False (P := k = "__global")) by done. by case_decide.
  - intros Hfresh Hplain. unfold compatJson. cbn [own].
    rewrite spread_fresh; [done | done |].
    csimpl. apply NoDup_cons. done.
Qed.

Lemma compat_document_shape_witness :
  NoDup (objKeys {| own := [("__global", mkSize 9 9); ("/page", mkSize 2 1)];
                    proto := None |}) ∧
  objGet (compatJson (mkSize 4 2)
            {| own := [("__global", mkSize 9 9); ("/page", mkSize 2 1)];
               proto := None |})
         "__global"
  = Some (mkSize 9 9).
Proof.
  split; [by compute_done|].
  apply (compat_document_shape (mkSize 4 2)
           {| own := [("__global", mkSize 9 9); ("/page", mkSize 2 1)];
              proto := None |}).
  by compute_done.
Defined.

(** X8.  The global delta works across runs: when a run reads back the
    compat document an earlier run wrote, and no page of the earlier manifest
    is named [__global], the global delta it reports is its own global
    total minus the earlier one, on both [raw] and [gzip]. *)
Theorem global_delta_across_runs {earlier : Node} (later : Node)
    (m m' : Manifests) :
  "__global" ∉ (appDirPages m).*1 →
  @previousAnalysis later
  = Some (parsedSizes (compatWritten (@report earlier m))) →
  deltaGlobal (diffs (@report later m'))
  = {| d_raw := Some (raw (__global (outputJson (@report later m')))
                      - raw (__global (outputJson (@report earlier m))))%Z;
       d_gzip := Some (gzip (__global (outputJson (@report later m')))
                       - gzip (__global (outputJson (@report earlier m))))%Z |}.
Proof.
  intros Hfresh Hread.
  change (diffs (@report later m'))
    with (logDiffs (@previousAnalysis later) (outputJson (@report later m'))).
  rewrite Hread. cbn [deltaGlobal logDiffs optRead].
  rewrite read_parsedSizes.
  change (compatWritten (@report earlier m))
    with (compatJson (__global (outputJson (@report earlier m)))
                     (__pages (outputJson (@report earlier m)))).
  unfold compatJson. cbn [own].
  rewrite spread_lookup by apply report_pages_shape.
  assert (ownGet (own (__pages (outputJson (@report earlier m)))) "__global"
          = None) as ->.
  { apply ownGet_None. intros Hin.
    apply (report_page_keys m "__global") in Hin as [Hin _]. done. }
  done.
Qed.

Lemma global_delta_across_runs_witness :
  ("__global" ∉ (appDirPages demoManifests).*1) ∧
  @previousAnalysis laterNode
  = Some (parsedSizes (compatWritten (@report demoNode demoManifests))) ∧
  deltaGlobal (diffs (@report laterNode demoManifests))
  = {| d_raw := Some (5 - 4)%Z; d_gzip := Some (2 - 2)%Z |}.
Proof.
  split; [by compute_done|]. split; [reflexivity|].
  apply (@global_delta_across_runs demoNode laterNode demoManifests
           demoManifests); [by compute_done | reflexivity].
Defined.

Section RouteFacts.
Context `{Node}.

Lemma routeToSource_fold (routes : list (string * string))
    (acc : obj RouteInfo) (route : string) (info : RouteInfo) :
  objGet
    (fold_left
       (fun acc entry =>
          objSet entry.2
            {| source := entry.1; sourceFile := resolveSourceFile entry.1 |} acc)
       routes acc) route = Some info →
  objGet acc route = Some info
  ∨ ((source info, route) ∈ routes
     ∧ sourceFile info = resolveSourceFile (source info)).
Proof.
  revert acc. induction routes as [|[s r] routes IH]; intros acc Hget;
    [by left|].
  cbn [fold_left fst snd] in Hget. apply IH in Hget as [Hget|[Hin Hfile]].
  - destruct (decide (r = route)) as [->|Hne].
    + rewrite objGet_objSet_eq in Hget. injection Hget as <-.
      right. split; [left | done].
    + rewrite objGet_objSet_ne in Hget by done. by left.
  - right. split; [by right | done].
Qed.

Lemma routeToSource_fold_keys (routes : list (string * string))
    (acc : obj RouteInfo) :
  Forall plainKey routes.*2 →
  objKeys
    (fold_left
       (fun acc entry =>
          objSet entry.2
            {| source := entry.1; sourceFile := resolveSourceFile entry.1 |} acc)
       routes acc)
  = fold_left setAdd routes.*2 (objKeys acc).
Proof.
  revert acc. induction routes as [|[s r] routes IH]; intros acc Hplain; [done|].
  csimpl in Hplain. apply Forall_cons in Hplain as [Hr Hplain].
  cbn [fold_left fst snd]. csimpl. by rewrite IH, objKeys_objSet_plain.
Qed.

Lemma routeToSource_fold_elem (routes : list (string * string))
    (acc : obj RouteInfo) (k : string) :
  "__proto__" ∉ objKeys acc →
  k ∈ objKeys
        (fold_left
           (fun acc entry =>
              objSet entry.2
                {| source := entry.1; sourceFile := resolveSourceFile entry.1 |}
                acc)
           routes acc)
  ↔ k ∈ objKeys acc ∨ (k ∈ routes.*2 ∧ k ≠ "__proto__").
Proof.
  revert acc. induction routes as [|[s r] routes IH]; intros acc Hp.
  { simpl. rewrite elem_of_nil. tauto. }
  cbn [fold_left fst snd]. rewrite IH by (by apply objSet_no_proto_key).
  rewrite elem_of_objKeys_objSet by done.
  csimpl. rewrite elem_of_cons. naive_solver.
Qed.

Lemma routeToSource_fold_last (routes : list (string * string))
    (acc : obj RouteInfo) (route : string) :
  route ∉ routes.*2 →
  objGet
    (fold_left
       (fun acc entry =>
          objSet entry.2
            {| source := entry.1; sourceFile := resolveSourceFile entry.1 |} acc)
       routes acc) route = objGet acc route.
Proof.
  revert acc. induction routes as [|[s r] routes IH]; intros acc Hout; [done|].
  csimpl in Hout. apply not_elem_of_cons in Hout as [Hne Hout].
  cbn [fold_left fst snd]. rewrite IH by done. by apply objGet_objSet_ne.
Qed.

End RouteFacts.

(** X11.  The route map has one entry for each route path of the routes
    manifest, the path [__proto__] apart, which an assignment stores as the
    prototype; when no route path is an array index or [__proto__], the
    keys are the route paths in order of first occurrence; every entry
    names a source that the manifest maps to that route, with the file
    [resolveSourceFile] finds for it; and when several sources lead to one
    route, the last one in the manifest is kept. *)
Theorem route_map_follows_manifest `{Node} (m : Manifests) :
  (∀ route, route ∈ objKeys (routeToSource m)
            ↔ route ∈ (appPathRoutes m).*2 ∧ route ≠ "__proto__") ∧
  (Forall plainKey (appPathRoutes m).*2 →
   objKeys (routeToSource m) = setOf (appPathRoutes m).*2) ∧
  (∀ route info,
     objGet (routeToSource m) route = Some info →
     (source info, route) ∈ appPathRoutes m ∧
     sourceFile info = resolveSourceFile (source info)) ∧
  (∀ before sourceLike route after,
     appPathRoutes m = before ++ (sourceLike, route) :: after →
     route ∉ after.*2 →
     objGet (routeToSource m) route
     = Some {| source := sourceLike;
               sourceFile := resolveSourceFile sourceLike |}).
Proof.
  unfold routeToSource. split_and!.
  - intros route. rewrite routeToSource_fold_elem by apply not_elem_of_nil.
    unfold objKeys at 1. simpl. rewrite elem_of_nil. tauto.
  - intros Hplain. by rewrite routeToSource_fold_keys.
  - intros route info Hget.
    apply routeToSource_fold in Hget as [Hget|Hget]; [|done].
    unfold objGet in Hget. simpl in Hget. by case_decide.
  - intros before sourceLike route after -> Hlast.
    rewrite fold_left_app. cbn [fold_left fst snd].
    rewrite routeToSource_fold_last by done. apply objGet_objSet_eq.
Qed.

Lemma route_map_follows_manifest_witness :
  objGet (@routeToSource demoNode sharedRouteManifests) "/about"
  = Some {| source := "/api";
            sourceFile := @resolveSourceFile demoNode "/api" |}.
Proof.
  apply (proj2 (proj2 (proj2 (@route_map_follows_manifest demoNode
                                sharedRouteManifests)))
           [("/about/page", "/about")] "/api" "/about" []);
    [reflexivity | by compute_done].
Defined.

(** ** More on the diff *)

Lemma filter_out_self (l : list string) :
  filter (fun r => r ∉ l) l = [].
Proof.
  assert (∀ k, (∀ x, x ∈ k → x ∈ l) → filter (fun r => r ∉ l) k = []) as Hsub.
  { intros k. induction k as [|x k IH]; intros Hall; [done|].
    rewrite filter_cons_False.
    - apply IH. intros y Hy. apply Hall. by right.
    - intros Hnot. apply Hnot, Hall. left. }
  by apply Hsub.
Qed.

Lemma logDiffs_deltaGlobal (prev : option doc) (curr : Output) :
  deltaGlobal (logDiffs prev curr)
  = globalDelta (__global curr) (orElse (optRead prev "__global") zeroPart).
Proof. done. Qed.

(** X9.  A diff against an identical previous snapshot reports nothing:
    when the previous document holds the same global total, the same file
    and page maps and the same route keys as the current snapshot, the
    global delta is [{ raw: 0, gzip: 0 }] and the lists of changed, new and
    removed files, of changed pages and of new and removed routes are all
    empty. *)
Theorem diff_against_same_snapshot_is_empty (prev : option doc)
    (curr : Output) :
  optRead prev "__global" = Some (sizePart (__global curr)) →
  orElse (optRead prev "__files") (Obj []) = parsedEntries (own (__files curr)) →
  orElse (optRead prev "__pages") (Obj []) = parsedEntries (own (__pages curr)) →
  keys (orElse (optRead prev "__routes") (Obj [])) = objKeys (__routes curr) →
  logDiffs prev curr
  = {| deltaGlobal := {| d_raw := Some 0%Z; d_gzip := Some 0%Z |};
       changedFiles := []; newFiles := []; removedFiles := [];
       pageChanges := []; newRoutes := []; removedRoutes := [] |}.
Proof.
  intros Hglobal Hfiles Hpages Hroutes.
  assert (∀ c, nonZero (sizeDelta (Val (sizeEntry c)) (Val (sizeEntry c)))
               = false) as Hsame.
  { intros c. rewrite sizeDelta_sizeEntry. apply nonZero_numeric_false. lia. }
  assert (∀ (o : obj SizeEntry) key,
            key ∈ setOf (keys (parsedEntries (own o)) ++ objKeys o) →
            ∃ c, whenTruthy (lookup (parsedEntries (own o)) key)
                 = Some (Val (sizeEntry c))
                 ∧ whenTruthy (sizeLookup o key) = Some (Val (sizeEntry c)))
    as Hboth.
  { intros o key Hkey.
    rewrite elem_of_setOf, elem_of_app, keys_parsedEntries in Hkey.
    assert (key ∈ objKeys o) as Hown by by destruct Hkey.
    apply ownGet_is_Some in Hown as [c Hc]. exists c.
    by rewrite found_parsedEntries, (found_own _ _ _ Hc), Hc. }
  pose proof (logDiffs_changedFiles prev curr) as Hch.
  pose proof (logDiffs_newFiles prev curr) as Hnew.
  pose proof (logDiffs_removedFiles prev curr) as Hrm.
  pose proof (logDiffs_pageChanges prev curr) as Hpg.
  rewrite Hfiles in Hch, Hnew, Hrm. rewrite Hpages in Hpg.
  rewrite omap_nothing in Hch; last first.
  { intros key Hkey. destruct (Hboth _ _ Hkey) as (c & Hp & Hc).
    unfold changedAt. by rewrite Hp, Hc, Hsame. }
  rewrite omap_nothing in Hnew; last first.
  { intros key Hkey. destruct (Hboth _ _ Hkey) as (c & Hp & Hc).
    unfold newAt. by rewrite Hp. }
  rewrite omap_nothing in Hrm; last first.
  { intros key Hkey. destruct (Hboth _ _ Hkey) as (c & Hp & Hc).
    unfold removedAt. by rewrite Hp, Hc. }
  rewrite omap_nothing in Hpg; last first.
  { intros key Hkey. destruct (Hboth _ _ Hkey) as (c & Hp & Hc).
    unfold pageChangeAt, orElse. rewrite Hp, Hc. simpl. by rewrite Hsame. }
  destruct (logDiffs prev curr) as [dg ch nw rm pg nr rr] eqn:Hdiff.
  cbn [changedFiles newFiles removedFiles pageChanges] in Hch, Hnew, Hrm, Hpg.
  subst ch nw rm pg.
  assert (dg = deltaGlobal (logDiffs prev curr)) as Hdg by by rewrite Hdiff.
  assert (nr = newRoutes (logDiffs prev curr)) as Hnr by by rewrite Hdiff.
  assert (rr = removedRoutes (logDiffs prev curr)) as Hrr by by rewrite Hdiff.
  cbn [newRoutes removedRoutes logDiffs] in Hnr, Hrr.
  rewrite Hroutes in Hnr, Hrr. rewrite filter_out_self in Hnr, Hrr.
  rewrite logDiffs_deltaGlobal, Hglobal in Hdg.
  change (orElse (Some (sizePart (__global curr))) zeroPart)
    with (sizePart (__global curr)) in Hdg.
  unfold globalDelta in Hdg. simpl in Hdg. rewrite !Z.sub_diag in Hdg.
  by subst.
Qed.

Lemma diff_against_same_snapshot_is_empty_witness :
  logDiffs
    (Some (Obj [("__global", sizePart zeroSize);
                ("__files", parsedEntries [("b.js", mkSize 300 120)])]))
    scenarioCurrent
  = {| deltaGlobal := {| d_raw := Some 0%Z; d_gzip := Some 0%Z |};
       changedFiles := []; newFiles := []; removedFiles := [];
       pageChanges := []; newRoutes := []; removedRoutes := [] |}.
Proof.
  apply (diff_against_same_snapshot_is_empty
           (Some (Obj [("__global", sizePart zeroSize);
                       ("__files", parsedEntries [("b.js", mkSize 300 120)])]))
           scenarioCurrent); reflexivity.
Defined.

(** X10.  The route pass is a pair of set differences on route keys: a
    route is new exactly when it is a key of the current route map and not
    of the previous one, removed exactly when it is a key of the previous
    one and not of the current one; no route is in both lists, and neither
    list repeats a route. *)
Theorem route_pass_is_set_difference (prev : option doc) (curr : Output)
    (route : string) :
  (route ∈ newRoutes (logDiffs prev curr)
   ↔ route ∈ objKeys (__routes curr)
     ∧ route ∉ keys (orElse (optRead prev "__routes") (Obj (A := entry) []))) ∧
  (route ∈ removedRoutes (logDiffs prev curr)
   ↔ route ∈ keys (orElse (optRead prev "__routes") (Obj (A := entry) []))
     ∧ route ∉ objKeys (__routes curr)) ∧
  ¬ (route ∈ newRoutes (logDiffs prev curr)
     ∧ route ∈ removedRoutes (logDiffs prev curr)) ∧
  NoDup (newRoutes (logDiffs prev curr)) ∧
  NoDup (removedRoutes (logDiffs prev curr)).
Proof.
  cbn [newRoutes removedRoutes logDiffs].
  rewrite !list_elem_of_filter, !elem_of_setOf.
  split_and!; try tauto; apply NoDup_filter, NoDup_setOf.
Qed.

(** ** More on the review-comment script *)

Section TableFacts.
Import Comment.
Implicit Types (currFiles baseFiles : part) (k : string).
Implicit Types (cf bf : list (string * SizeEntry)).

Lemma tableStep_unfold currFiles baseFiles ch ad rm k :
  tableStep currFiles baseFiles (ch, ad, rm) k
  = (ch ++ option_list (changedRowAt currFiles baseFiles k),
     ad ++ option_list (addedAt currFiles baseFiles k),
     rm ++ option_list (removedRowAt currFiles baseFiles k)).
Proof.
  unfold tableStep, changedRowAt, addedAt, removedRowAt.
  destruct (whenTruthy (lookup currFiles k)) as [c|],
           (whenTruthy (lookup baseFiles k)) as [b|]; simpl;
    try destruct (_ || _); simpl; by rewrite ?app_nil_r.
Qed.

Lemma tableStep_fold currFiles baseFiles (ks : list string) ch ad rm :
  fold_left (tableStep currFiles baseFiles) ks (ch, ad, rm)
  = (ch ++ omap (changedRowAt currFiles baseFiles) ks,
     ad ++ omap (addedAt currFiles baseFiles) ks,
     rm ++ omap (removedRowAt currFiles baseFiles) ks).
Proof.
  revert ch ad rm. induction ks as [|k ks IH]; intros ch ad rm.
  - simpl. by rewrite !app_nil_r.
  - cbn [fold_left]. rewrite tableStep_unfold, IH, !omap_cons_option_list.
    by rewrite !app_assoc.
Qed.

Lemma classify_closed currFiles baseFiles :
  classify currFiles baseFiles
  = (omap (changedRowAt currFiles baseFiles)
          (setOf (keys currFiles ++ keys baseFiles)),
     omap (addedAt currFiles baseFiles)
          (setOf (keys currFiles ++ keys baseFiles)),
     omap (removedRowAt currFiles baseFiles)
          (setOf (keys currFiles ++ keys baseFiles))).
Proof. unfold classify. by rewrite tableStep_fold. Qed.

Lemma changedRowAt_file currFiles baseFiles k x :
  changedRowAt currFiles baseFiles k = Some x → row_file x = k.
Proof.
  unfold changedRowAt.
  destruct (whenTruthy (lookup currFiles k)), (whenTruthy (lookup baseFiles k));
    try done.
  destruct (_ || _); [|done]. by intros [= <-].
Qed.

Lemma addedAt_file currFiles baseFiles k x :
  addedAt currFiles baseFiles k = Some x → e_file x = k.
Proof.
  unfold addedAt.
  destruct (whenTruthy (lookup currFiles k)), (whenTruthy (lookup baseFiles k));
    try done.
  by intros [= <-].
Qed.

Lemma removedRowAt_file currFiles baseFiles k x :
  removedRowAt currFiles baseFiles k = Some x → e_file x = k.
Proof.
  unfold removedRowAt.
  destruct (whenTruthy (lookup currFiles k)), (whenTruthy (lookup baseFiles k));
    try done.
  by intros [= <-].
Qed.

(** The rows of a key that names no member of [Object.prototype], for
    file maps of size entries. *)
Lemma addedAt_parsed cf bf k :
  ordinary k →
  addedAt (parsedEntries cf) (parsedEntries bf) k
  = match ownGet cf k, ownGet bf k with
    | Some c, None =>
        Some {| e_file := k; e_raw := Some (raw c); e_gzip := Some (gzip c) |}
    | _, _ => None
    end.
Proof.
  intros Hk. unfold addedAt. rewrite !found_parsedEntries, !decide_True by done.
  by destruct (ownGet cf k), (ownGet bf k).
Qed.

Lemma removedRowAt_parsed cf bf k :
  ordinary k →
  removedRowAt (parsedEntries cf) (parsedEntries bf) k
  = match ownGet cf k, ownGet bf k with
    | None, Some b =>
        Some {| e_file := k; e_raw := Some (raw b); e_gzip := Some (gzip b) |}
    | _, _ => None
    end.
Proof.
  intros Hk. unfold removedRowAt.
  rewrite !found_parsedEntries, !decide_True by done.
  by destruct (ownGet cf k), (ownGet bf k).
Qed.

Lemma changedRowAt_parsed cf bf k :
  ordinary k →
  changedRowAt (parsedEntries cf) (parsedEntries bf) k
  = match ownGet cf k, ownGet bf k with
    | Some c, Some b =>
        if nonZero {| d_raw := Some (raw c - raw b)%Z;
                      d_gzip := Some (gzip c - gzip b)%Z |}
        then Some {| row_file := k; row_raw := Some (raw c);
                     row_gzip := Some (gzip c);
                     dRaw := Some (raw c - raw b)%Z;
                     dGzip := Some (gzip c - gzip b)%Z |}
        else None
    | _, _ => None
    end.
Proof.
  intros Hk. unfold changedRowAt.
  rewrite !found_parsedEntries, !decide_True by done.
  by destruct (ownGet cf k), (ownGet bf k).
Qed.

Lemma changedRowAt_both cf bf k c b :
  ownGet cf k = Some c → ownGet bf k = Some b →
  changedRowAt (parsedEntries cf) (parsedEntries bf) k
  = if nonZero {| d_raw := Some (raw c - raw b)%Z;
                  d_gzip := Some (gzip c - gzip b)%Z |}
    then Some {| row_file := k; row_raw := Some (raw c);
                 row_gzip := Some (gzip c);
                 dRaw := Some (raw c - raw b)%Z;
                 dGzip := Some (gzip c - gzip b)%Z |}
    else None.
Proof.
  intros Hc Hb. unfold changedRowAt. by rewrite !found_parsedEntries, Hc, Hb.
Qed.

Lemma tableKeys_elem cf bf k :
  k ∈ setOf (keys (parsedEntries cf) ++ keys (parsedEntries bf))
  ↔ k ∈ cf.*1 ∨ k ∈ bf.*1.
Proof. by rewrite elem_of_setOf, elem_of_app, !keys_parsedEntries. Qed.

(** Which keys each table lists, for file maps of size entries. *)
Lemma added_files cf bf k :
  ordinary k →
  k ∈ (e_file <$> (classify (parsedEntries cf) (parsedEntries bf)).1.2)
  ↔ k ∈ cf.*1 ∧ k ∉ bf.*1.
Proof.
  intros Hk. rewrite classify_closed. cbn [fst snd].
  rewrite (omap_keys _ e_file _ (addedAt_file _ _)).
  rewrite list_elem_of_filter, tableKeys_elem, addedAt_parsed by done.
  rewrite <- !ownGet_is_Some. unfold is_Some.
  destruct (ownGet cf k) as [c|], (ownGet bf k) as [b|]; naive_solver.
Qed.

Lemma removed_files cf bf k :
  ordinary k →
  k ∈ (e_file <$> (classify (parsedEntries cf) (parsedEntries bf)).2)
  ↔ k ∈ bf.*1 ∧ k ∉ cf.*1.
Proof.
  intros Hk. rewrite classify_closed. cbn [fst snd].
  rewrite (omap_keys _ e_file _ (removedRowAt_file _ _)).
  rewrite list_elem_of_filter, tableKeys_elem, removedRowAt_parsed by done.
  rewrite <- !ownGet_is_Some. unfold is_Some.
  destruct (ownGet cf k) as [c|], (ownGet bf k) as [b|]; naive_solver.
Qed.

Lemma changed_files cf bf k :
  ordinary k →
  k ∈ (row_file <$> (classify (parsedEntries cf) (parsedEntries bf)).1.1)
  ↔ ∃ c b, ownGet cf k = Some c ∧ ownGet bf k = Some b
           ∧ (raw c - raw b ≠ 0 ∨ gzip c - gzip b ≠ 0)%Z.
Proof.
  intros Hk. rewrite classify_closed. cbn [fst snd].
  rewrite (omap_keys _ row_file _ (changedRowAt_file _ _)).
  rewrite list_elem_of_filter, tableKeys_elem, changedRowAt_parsed by done.
  rewrite <- !ownGet_is_Some. unfold is_Some.
  destruct (ownGet cf k) as [c|], (ownGet bf k) as [b|]; try naive_solver.
  destruct (nonZero _) eqn:Hnz.
  - apply nonZero_numeric in Hnz. naive_solver.
  - apply nonZero_numeric_false in Hnz. split; [naive_solver|].
    intros (c' & b' & [= <-] & [= <-] & Hne). lia.
Qed.

End TableFacts.

(** X12.  The review-comment script files every key of either file map
    that names no member of [Object.prototype] in exactly one way: present
    only in the current map, it gets an added row with the current sizes;
    present only in the base map, a removed row with the base sizes; present
    in both with a raw or a gzip difference, a changed row with the current
    sizes and the signed differences; present in both without difference,
    no row.  No file has two rows. *)
Theorem comment_tables_classify_files (curr : doc) (base : option doc)
    (cf bf : list (string * SizeEntry)) :
  orElse (read curr "__files") (Obj []) = parsedEntries cf →
  orElse (optRead (whenTruthy base) "__files") (Obj []) = parsedEntries bf →
  (∀ k, ordinary k →
        k ∈ (Comment.e_file <$> Comment.added (Comment.tables curr base))
        ↔ k ∈ cf.*1 ∧ k ∉ bf.*1) ∧
  (∀ k, ordinary k →
        k ∈ (Comment.e_file <$> Comment.removed (Comment.tables curr base))
        ↔ k ∈ bf.*1 ∧ k ∉ cf.*1) ∧
  (∀ k, ordinary k →
        k ∈ (Comment.row_file
               <$> elements (Comment.changed (Comment.tables curr base)))
        ↔ ∃ c b, ownGet cf k = Some c ∧ ownGet bf k = Some b
                 ∧ (raw c - raw b ≠ 0 ∨ gzip c - gzip b ≠ 0)%Z) ∧
  (∀ k c, ordinary k → ownGet cf k = Some c → k ∉ bf.*1 →
          {| Comment.e_file := k; Comment.e_raw := Some (raw c);
             Comment.e_gzip := Some (gzip c) |}
            ∈ Comment.added (Comment.tables curr base)) ∧
  (∀ k b, ordinary k → k ∉ cf.*1 → ownGet bf k = Some b →
          {| Comment.e_file := k; Comment.e_raw := Some (raw b);
             Comment.e_gzip := Some (gzip b) |}
            ∈ Comment.removed (Comment.tables curr base)) ∧
  (∀ k c b, ownGet cf k = Some c → ownGet bf k = Some b →
            (raw c - raw b ≠ 0 ∨ gzip c - gzip b ≠ 0)%Z →
            {| Comment.row_file := k;
               Comment.row_raw := Some (raw c);
               Comment.row_gzip := Some (gzip c);
               Comment.dRaw := Some (raw c - raw b)%Z;
               Comment.dGzip := Some (gzip c - gzip b)%Z |}
              ∈ elements (Comment.changed (Comment.tables curr base))) ∧
  NoDup ((Comment.e_file <$> Comment.added (Comment.tables curr base)) ++
         (Comment.e_file <$> Comment.removed (Comment.tables curr base)) ++
         (Comment.row_file
            <$> elements (Comment.changed (Comment.tables curr base)))).
Proof.
  intros Hcurr Hbase. unfold Comment.tables. rewrite Hcurr, Hbase.
  cbn [Comment.changed Comment.added Comment.removed].
  assert (∀ k, k ∈ setOf (keys (parsedEntries cf) ++ keys (parsedEntries bf))
               ↔ k ∈ cf.*1 ∨ k ∈ bf.*1) as Hkeys
    by apply tableKeys_elem.
  split_and!.
  - intros k Hk. by apply added_files.
  - intros k Hk. by apply removed_files.
  - intros k Hk. rewrite arraySort_Permutation. by apply changed_files.
  - intros k c Hk Hc Hb. rewrite classify_closed. cbn [fst snd].
    apply list_elem_of_omap. exists k. split.
    + apply Hkeys. left. apply ownGet_is_Some. by rewrite Hc.
    + apply ownGet_None in Hb. by rewrite addedAt_parsed, Hc, Hb.
  - intros k b Hk Hc Hb. rewrite classify_closed. cbn [fst snd].
    apply list_elem_of_omap. exists k. split.
    + apply Hkeys. right. apply ownGet_is_Some. by rewrite Hb.
    + apply ownGet_None in Hc. by rewrite removedRowAt_parsed, Hc, Hb.
  - intros k c b Hc Hb Hnz. rewrite arraySort_Permutation.
    rewrite classify_closed. cbn [fst snd].
    apply list_elem_of_omap. exists k. split.
    + apply Hkeys. left. apply ownGet_is_Some. by rewrite Hc.
    + rewrite (changedRowAt_both _ _ _ _ _ Hc Hb).
      apply nonZero_numeric in Hnz. by rewrite Hnz.
  - rewrite arraySort_Permutation. rewrite classify_closed. cbn [fst snd].
    rewrite (omap_keys _ Comment.e_file _ (addedAt_file _ _)).
    rewrite (omap_keys _ Comment.e_file _ (removedRowAt_file _ _)).
    rewrite (omap_keys _ Comment.row_file _ (changedRowAt_file _ _)).
    apply NoDup_app. split_and!; [apply NoDup_filter, NoDup_setOf | |].
    + intros k Hadd Hother. apply list_elem_of_filter in Hadd as [Hadd _].
      unfold addedAt in Hadd.
      apply elem_of_app in Hother as [Hrm|Hch];
        [apply list_elem_of_filter in Hrm as [Hrm _]; unfold removedRowAt in Hrm
        |apply list_elem_of_filter in Hch as [Hch _]; unfold changedRowAt in Hch];
        destruct (whenTruthy (lookup (parsedEntries cf) k)),
                 (whenTruthy (lookup (parsedEntries bf) k));
        by (destruct Hadd as [? [=]] || destruct Hrm as [? [=]]
            || destruct Hch as [? [=]]).
    + apply NoDup_app.
      split_and!; [apply NoDup_filter, NoDup_setOf | | apply NoDup_filter, NoDup_setOf].
      intros k Hrm Hch. apply list_elem_of_filter in Hrm as [Hrm _].
      apply list_elem_of_filter in Hch as [Hch _].
      unfold removedRowAt in Hrm. unfold changedRowAt in Hch.
      destruct (whenTruthy (lookup (parsedEntries cf) k)),
               (whenTruthy (lookup (parsedEntries bf) k));
        by (destruct Hrm as [? [=]] || destruct Hch as [? [=]]).
Qed.

Lemma comment_tables_classify_files_witness :
  orElse (read tieCurrent "__files") (Obj [])
  = parsedEntries [("b.js", mkSize 110 60); ("a.js", mkSize 110 60);
                   ("c.js", mkSize 110 60)] ∧
  orElse (optRead (whenTruthy (Some (Obj []))) "__files") (Obj [])
  = parsedEntries [] ∧
  {| Comment.e_file := "a.js"; Comment.e_raw := Some 110%Z;
     Comment.e_gzip := Some 60%Z |}
    ∈ Comment.added (Comment.tables tieCurrent (Some (Obj []))).
Proof.
  split; [reflexivity|]. split; [reflexivity|].
  apply (proj1 (proj2 (proj2 (proj2
           (comment_tables_classify_files tieCurrent (Some (Obj []))
              [("b.js", mkSize 110 60); ("a.js", mkSize 110 60);
               ("c.js", mkSize 110 60)] [] eq_refl eq_refl))))
           "a.js" (mkSize 110 60)); [by compute_done | reflexivity | by compute_done].
Defined.

(** X13.  Without a base analysis the base file map is the empty object:
    when neither base document can be read the base is [null], and then,
    among the keys of the current file map, the script lists as added those
    whose entry is truthy and whose name is not a member of
    [Object.prototype], as changed those whose entry is truthy and whose
    name is such a member, and as removed those whose entry is falsy and
    whose name is such a member, each in key order; so when no key names
    such a member there is no changed and no removed row. *)
Theorem comment_tables_without_base `{Node} (curr : doc) :
  (Comment.readJsonSafe Comment.basePrimaryPath = None →
   Comment.readJsonSafe Comment.baseExtendedPath = None →
   Comment.base = None) ∧
  Comment.e_file <$> Comment.added (Comment.tables curr None)
  = filter (fun k => truthy (lookup (orElse (read curr "__files") (Obj [])) k)
                     = true ∧ ordinary k)
           (setOf (keys (orElse (read curr "__files") (Obj (A := entry) [])))) ∧
  Comment.row_file <$> elements (Comment.changed (Comment.tables curr None))
  ≡ₚ filter (fun k => truthy (lookup (orElse (read curr "__files") (Obj [])) k)
                      = true ∧ ¬ ordinary k)
            (setOf (keys (orElse (read curr "__files") (Obj (A := entry) [])))) ∧
  Comment.e_file <$> Comment.removed (Comment.tables curr None)
  = filter (fun k => truthy (lookup (orElse (read curr "__files") (Obj [])) k)
                     = false ∧ ¬ ordinary k)
           (setOf (keys (orElse (read curr "__files") (Obj (A := entry) [])))) ∧
  (Forall ordinary (keys (orElse (read curr "__files") (Obj (A := entry) []))) →
   elements (Comment.changed (Comment.tables curr None)) = [] ∧
   Comment.removed (Comment.tables curr None) = []).
Proof.
  split.
  { intros Hprimary Hextended. unfold Comment.base, orElseOpt.
    by rewrite Hprimary, Hextended. }
  unfold Comment.tables.
  change (orElse (optRead (whenTruthy None) "__files") (Obj []))
    with (Obj (A := entry) []).
  set (currFiles := orElse (read curr "__files") (Obj [])).
  rewrite classify_closed. cbn [fst snd Comment.changed Comment.added
                                Comment.removed].
  change (keys (Obj (A := entry) [])) with (@nil string). rewrite app_nil_r.
  assert (∀ k, whenTruthy (lookup (Obj (A := entry) []) k)
               = if decide (ordinary k) then None else Some Builtin) as Hbase.
  { intros k. change (Obj []) with (parsedEntries []).
    by rewrite found_parsedEntries. }
  split_and!.
  - rewrite (omap_keys _ Comment.e_file _ (addedAt_file _ _)).
    apply list_filter_iff. intros k. unfold addedAt.
    rewrite Hbase. unfold whenTruthy.
    destruct (lookup currFiles k) as [c|]; simpl;
      destruct (truthy _) eqn:Ht; destruct (decide (ordinary k));
      by (split; [by intros [? [=]] | by intros [??]]).
  - rewrite arraySort_Permutation.
    rewrite (omap_keys _ Comment.row_file _ (changedRowAt_file _ _)).
    erewrite list_filter_iff; [done|]. intros k. unfold changedRowAt.
    rewrite Hbase. unfold whenTruthy.
    destruct (lookup currFiles k) as [c|]; simpl;
      destruct (truthy _) eqn:Ht; destruct (decide (ordinary k));
      try (split; [by intros [? [=]] | by intros [??]]).
    assert (jsSub (rawOf c) (rawOf Builtin) = None) as ->
      by by destruct (rawOf c).
    simpl. split; [done | by eexists].
  - rewrite (omap_keys _ Comment.e_file _ (removedRowAt_file _ _)).
    apply list_filter_iff. intros k. unfold removedRowAt.
    rewrite Hbase. unfold whenTruthy.
    destruct (lookup currFiles k) as [c|]; simpl;
      destruct (truthy _) eqn:Ht; destruct (decide (ordinary k));
      try (split; [by intros [? [=]] | by intros [??]]);
      try (split; [done | by eexists]).
  - intros Hord. rewrite Forall_forall in Hord.
    assert (∀ k, k ∈ setOf (keys currFiles) → ordinary k) as Hall.
    { intros k Hk. rewrite elem_of_setOf in Hk. by apply Hord. }
    assert (omap (changedRowAt currFiles (Obj [])) (setOf (keys currFiles)) = [])
      as Hnone.
    { apply omap_nothing. intros k Hk. unfold changedRowAt.
      rewrite Hbase, decide_True by by apply Hall.
      by destruct (whenTruthy (lookup currFiles k)). }
    split.
    + by rewrite Hnone.
    + apply omap_nothing. intros k Hk. unfold removedRowAt.
      rewrite Hbase, decide_True by by apply Hall.
      by destruct (whenTruthy (lookup currFiles k)).
Qed.

(** X14.  The two programs sort files into the same groups: on the same
    pair of file maps, the current one having the default prototype, the
    added, removed and changed tables of the review-comment script list the
    same files as [newFiles], [removedFiles] and [changedFiles] of
    [logDiffs]; only the order of the rows can differ. *)
Theorem comment_tables_agree_with_logDiffs (curr : doc)
    (base prev : option doc) (out : Output)
    (bf : list (string * SizeEntry)) :
  proto (__files out) = None →
  orElse (read curr "__files") (Obj []) = parsedEntries (own (__files out)) →
  orElse (optRead (whenTruthy base) "__files") (Obj []) = parsedEntries bf →
  orElse (optRead prev "__files") (Obj []) = parsedEntries bf →
  Comment.e_file <$> Comment.added (Comment.tables curr base)
    ≡ₚ nf_file <$> newFiles (logDiffs prev out) ∧
  Comment.e_file <$> Comment.removed (Comment.tables curr base)
    ≡ₚ rf_file <$> removedFiles (logDiffs prev out) ∧
  Comment.row_file <$> elements (Comment.changed (Comment.tables curr base))
    ≡ₚ cf_file <$> changedFiles (logDiffs prev out).
Proof.
  intros Hproto Hcurr Hbase Hprev.
  rewrite logDiffs_newFiles, logDiffs_removedFiles, logDiffs_changedFiles, Hprev.
  unfold Comment.tables. rewrite Hcurr, Hbase.
  cbn [Comment.changed Comment.added Comment.removed].
  rewrite arraySort_Permutation. rewrite classify_closed. cbn [fst snd].
  rewrite (omap_keys _ Comment.e_file _ (addedAt_file _ _)).
  rewrite (omap_keys _ Comment.e_file _ (removedRowAt_file _ _)).
  rewrite (omap_keys _ Comment.row_file _ (changedRowAt_file _ _)).
  rewrite (omap_keys _ nf_file _ (newAt_file _ _)).
  rewrite (omap_keys _ rf_file _ (removedAt_file _ _)).
  rewrite (omap_keys _ cf_file _ (changedAt_file _ _)).
  assert (∀ k, k ∈ setOf (keys (parsedEntries (own (__files out)))
                          ++ keys (parsedEntries bf))
               ↔ k ∈ setOf (keys (parsedEntries bf) ++ objKeys (__files out)))
    as Hkeys.
  { intros k. rewrite !elem_of_setOf, !elem_of_app, !keys_parsedEntries.
    unfold objKeys. tauto. }
  assert (∀ k, sizeLookup (__files out) k
               = lookup (parsedEntries (own (__files out))) k) as Hsame.
  { intros k. by apply sizeLookup_default. }
  split_and!; apply NoDup_Permutation;
    try (apply NoDup_filter, NoDup_setOf);
    intros k; rewrite !list_elem_of_filter, Hkeys;
    unfold addedAt, newAt, removedRowAt, removedAt, changedRowAt, changedAt;
    rewrite Hsame;
    destruct (whenTruthy (lookup (parsedEntries (own (__files out))) k)) as [c|],
             (whenTruthy (lookup (parsedEntries bf) k)) as [b|];
    try (split; intros [[? Hs] ?]; (done || (split; [by eexists | done]))).
  unfold sizeDelta, nonZero. simpl.
  destruct (neqZero _ || neqZero _);
    split; intros [[? Hs] ?]; (done || (split; [by eexists | done])).
Qed.

Lemma comment_tables_agree_with_logDiffs_witness :
  Comment.e_file <$>
    Comment.added
      (Comment.tables
         (Obj [("__files", parsedEntries (own (__files scenarioCurrent)))])
         scenarioPrevious)
    ≡ₚ nf_file <$> newFiles (logDiffs scenarioPrevious scenarioCurrent).
Proof.
  apply (comment_tables_agree_with_logDiffs
           (Obj [("__files", parsedEntries (own (__files scenarioCurrent)))])
           scenarioPrevious scenarioPrevious scenarioCurrent
           [("a.js", mkSize 200 80)]); reflexivity.
Defined.

(** ** Rendering of a delta *)

Lemma sign_zero : sign (Some 0%Z) = "0".
Proof. reflexivity. Qed.

Lemma sign_pos (p : positive) :
  sign (Some (Z.pos p)) = String "+"%char (pretty (Z.pos p)).
Proof. reflexivity. Qed.

Lemma sign_neg (p : positive) :
  sign (Some (Z.neg p)) = String "-"%char (pretty p).
Proof. reflexivity. Qed.

(** X15.  [sign] renders distinct deltas differently: it is injective, the
    rendering is ["0"] only for a zero delta, and it starts with [+] exactly
    for a positive delta. *)
Theorem sign_is_injective (a b : jsnum) :
  (sign a = sign b → a = b) ∧
  (sign a = "0" ↔ a = Some 0%Z) ∧
  ((∃ rest, sign a = "+" +:+ rest) ↔ ∃ z, a = Some z ∧ (0 < z)%Z).
Proof.
  split_and!.
  - destruct a as [[|p|p]|], b as [[|q|q]|];
      rewrite ?sign_zero, ?sign_pos, ?sign_neg; intros Heq; try done.
    + injection Heq as Heq. apply (inj pretty) in Heq. by rewrite Heq.
    + injection Heq as Heq. apply (inj pretty) in Heq. by rewrite Heq.
  - destruct a as [[|p|p]|]; rewrite ?sign_zero, ?sign_pos, ?sign_neg;
      split; done.
  - destruct a as [[|p|p]|]; rewrite ?sign_zero, ?sign_pos, ?sign_neg.
    + split; [by intros [? [=]] | intros (z & [= <-] & ?); lia].
    + split; [intros _; exists (Z.pos p); split; [done | lia]
             | intros _; by eexists].
    + split; [by intros [? [=]] | intros (z & [= <-] & ?); lia].
    + split; [by intros [? [=]] | by intros (z & [=] & _)].
Qed.

(** ** The manifest-compatibility script *)

Section ShimFacts.
Context `{Node} (writable : string → bool).
Import Shim.

Lemma present_true (s : gmap string Entry) (p : string) :
  present s p = true ↔ is_Some (s !! p).
Proof. unfold present. apply bool_decide_eq_true. Qed.

Lemma present_false (s : gmap string Entry) (p : string) :
  present s p = false ↔ s !! p = None.
Proof.
  unfold present. rewrite bool_decide_eq_false. symmetry. apply eq_None_not_Some.
Qed.

(** Each step either leaves the world alone or adds one entry at a path
    that was missing, with one line logged. *)
Lemma ensureReactLoadable_cases (w : World) :
  ensureReactLoadable writable w = w
  ∨ (store w !! reactLoadablePath = None
     ∧ writable reactLoadablePath = true
     ∧ ensureReactLoadable writable w
       = {| store := <[reactLoadablePath := File "{}"]> (store w);
            logged := logged w
                      ++ ["Created compat .next/react-loadable-manifest.json"] |}).
Proof.
  unfold ensureReactLoadable, writeFileSync.
  destruct (present (store w) reactLoadablePath) eqn:Hp; [by left|].
  apply present_false in Hp.
  destruct (writable reactLoadablePath); [by right | by left].
Qed.

Lemma ensurePagesManifest_cases (w : World) :
  ensurePagesManifest writable w = w
  ∨ ∃ text,
      store w !! rootPagesManifest = None
      ∧ store w !! serverPagesManifest = Some (File text)
      ∧ writable rootPagesManifest = true
      ∧ ensurePagesManifest writable w
        = {| store := <[rootPagesManifest := File text]> (store w);
             logged :=
               logged w
               ++ ["Copied server/pages-manifest.json to root .next/pages-manifest.json"] |}.
Proof.
  unfold ensurePagesManifest, copyFileSync.
  destruct (present (store w) rootPagesManifest) eqn:Hroot; [by left|].
  apply present_false in Hroot. cbn [negb andb].
  destruct (present (store w) serverPagesManifest); [|by left].
  destruct (store w !! serverPagesManifest) as [[|text]|] eqn:Hserver;
    [by left | | by left].
  destruct (writable rootPagesManifest) eqn:Hw; [|by left].
  right. by exists text.
Qed.

Lemma ensureReactLoadable_settled (w : World) :
  is_Some (store w !! reactLoadablePath) ∨ writable reactLoadablePath = false →
  ensureReactLoadable writable w = w.
Proof.
  unfold ensureReactLoadable, writeFileSync. intros [Hp|Hw].
  - apply present_true in Hp. by rewrite Hp.
  - rewrite Hw. by destruct (present _ _).
Qed.

Lemma ensurePagesManifest_settled (w : World) :
  is_Some (store w !! rootPagesManifest) → ensurePagesManifest writable w = w.
Proof.
  unfold ensurePagesManifest. intros Hp. apply present_true in Hp.
  by rewrite Hp.
Qed.

Lemma run_cases (w : World) :
  run writable w = w
  ∨ (is_Some (store w !! nextDir)
     ∧ run writable w
       = ensurePagesManifest writable (ensureReactLoadable writable w)).
Proof.
  unfold run. destruct (present (store w) nextDir) eqn:Hp; [|by left].
  right. split; [by apply present_true | done].
Qed.

Lemma run_keeps (w : World) (p : string) (e : Entry) :
  store w !! p = Some e → store (run writable w) !! p = Some e.
Proof.
  intros Hp. destruct (run_cases w) as [->|[_ ->]]; [done|].
  assert (store (ensureReactLoadable writable w) !! p = Some e) as Hp1.
  { destruct (ensureReactLoadable_cases w) as [->|(Hnone & _ & ->)]; [done|].
    cbn [store]. rewrite lookup_insert_ne; [done | congruence]. }
  destruct (ensurePagesManifest_cases (ensureReactLoadable writable w))
    as [->|(text & Hnone & _ & _ & ->)]; [done|].
  cbn [store]. rewrite lookup_insert_ne; [done | congruence].
Qed.

End ShimFacts.

(** X16.  The compatibility script only adds what is missing: an entry of
    the store is never changed or removed, no path other than the two
    manifests is touched, nothing at all happens when [.next] does not
    exist, and a line is logged exactly when the store changed. *)
Theorem shim_only_adds_missing_manifests `{Node} (writable : string → bool)
    (w : Shim.World) (p : string) :
  (∀ e, Shim.store w !! p = Some e →
        Shim.store (Shim.run writable w) !! p = Some e) ∧
  (p ≠ Shim.reactLoadablePath → p ≠ Shim.rootPagesManifest →
   Shim.store (Shim.run writable w) !! p = Shim.store w !! p) ∧
  (Shim.store w !! Shim.nextDir = None → Shim.run writable w = w) ∧
  (Shim.logged (Shim.run writable w) = Shim.logged w
   ↔ Shim.store (Shim.run writable w) = Shim.store w).
Proof.
  split_and!.
  - intros e. apply run_keeps.
  - intros Hreact Hroot.
    destruct (run_cases writable w) as [->|[_ ->]]; [done|].
    destruct (ensurePagesManifest_cases writable
                (Shim.ensureReactLoadable writable w))
      as [->|(text & _ & _ & _ & ->)];
      destruct (ensureReactLoadable_cases writable w) as [->|(_ & _ & ->)];
      cbn [Shim.store]; by rewrite ?lookup_insert_ne.
  - intros Hmissing. unfold Shim.run.
    apply present_false in Hmissing. by rewrite Hmissing.
  - destruct (run_cases writable w) as [->|[_ ->]]; [done|].
    destruct (ensureReactLoadable_cases writable w)
      as [Hsame|(Hnone & _ & Hnew)].
    + rewrite Hsame.
      destruct (ensurePagesManifest_cases writable w)
        as [->|(text & Hroot & _ & _ & ->)]; [done|].
      cbn [Shim.store Shim.logged]. split.
      * intros Hlog. apply (f_equal length) in Hlog.
        rewrite length_app in Hlog. simpl in Hlog. lia.
      * intros Hstore. apply (f_equal (fun s => s !! Shim.rootPagesManifest))
          in Hstore. rewrite lookup_insert_eq in Hstore. congruence.
    + assert (Shim.store
                (Shim.ensurePagesManifest writable
                   (Shim.ensureReactLoadable writable w))
                !! Shim.reactLoadablePath = Some (Shim.File "{}")) as Hkept.
      { destruct (ensurePagesManifest_cases writable
                    (Shim.ensureReactLoadable writable w))
          as [->|(text & Hroot & _ & _ & ->)]; rewrite Hnew in *;
          cbn [Shim.store] in *.
        - apply lookup_insert_eq.
        - rewrite lookup_insert_ne; [apply lookup_insert_eq|].
          intros Heq. rewrite Heq, lookup_insert_eq in Hroot. done. }
      assert (length (Shim.logged w)
              < length (Shim.logged
                          (Shim.ensurePagesManifest writable
                             (Shim.ensureReactLoadable writable w)))) as Hgrow.
      { destruct (ensurePagesManifest_cases writable
                    (Shim.ensureReactLoadable writable w))
          as [->|(text & _ & _ & _ & ->)]; rewrite Hnew;
          cbn [Shim.logged]; rewrite ?length_app; simpl; lia. }
      split.
      * intros Hlog. rewrite Hlog in Hgrow. lia.
      * intros Hstore. rewrite Hstore in Hkept. congruence.
Qed.

(** X17.  The compatibility script is idempotent: run again on its own
    result it changes neither the store nor the log. *)
Theorem shim_is_idempotent `{Node} (writable : string → bool) (w : Shim.World) :
  Shim.run writable (Shim.run writable w) = Shim.run writable w.
Proof.
  destruct (run_cases writable w) as [Hsame|[Hnext Hrun]].
  { by rewrite !Hsame. }
  set (w1 := Shim.ensureReactLoadable writable w) in *.
  set (w2 := Shim.ensurePagesManifest writable w1) in *.
  assert (∀ p e, Shim.store w1 !! p = Some e → Shim.store w2 !! p = Some e)
    as Hkeep.
  { intros p e Hp. subst w2.
    destruct (ensurePagesManifest_cases writable w1)
      as [->|(text & Hnone & _ & _ & ->)]; [done|].
    cbn [Shim.store]. rewrite lookup_insert_ne; [done | congruence]. }
  assert (Shim.ensureReactLoadable writable w2 = w2) as Hreact.
  { apply ensureReactLoadable_settled. subst w1.
    destruct (ensureReactLoadable_cases writable w) as [Hsame|(_ & _ & Hnew)].
    - unfold Shim.ensureReactLoadable, Shim.writeFileSync in Hsame.
      destruct (Shim.present (Shim.store w) Shim.reactLoadablePath) eqn:Hp.
      + apply present_true in Hp as [e He]. left. exists e. apply Hkeep.
        unfold Shim.ensureReactLoadable. 
        assert (Shim.present (Shim.store w) Shim.reactLoadablePath = true)
          as -> by (apply present_true; by eexists). done.
      + destruct (writable Shim.reactLoadablePath) eqn:Hw; [|by right].
        apply (f_equal Shim.logged) in Hsame. cbn [Shim.logged] in Hsame.
        apply (f_equal length) in Hsame. rewrite length_app in Hsame.
        simpl in Hsame. lia.
    - left. exists (Shim.File "{}"). apply Hkeep. rewrite Hnew.
      cbn [Shim.store]. apply lookup_insert_eq. }
  assert (Shim.ensurePagesManifest writable w2 = w2) as Hpages.
  { subst w2.
    destruct (ensurePagesManifest_cases writable w1)
      as [Hsame|(text & _ & _ & _ & Hnew)].
    - by rewrite !Hsame.
    - rewrite Hnew. apply ensurePagesManifest_settled. cbn [Shim.store].
      rewrite lookup_insert_eq. by eexists. }
  rewrite Hrun. unfold Shim.run.
  assert (Shim.present (Shim.store w2) Shim.nextDir = true) as ->.
  { apply present_true. destruct Hnext as [e He]. exists e.
    apply Hkeep. subst w1.
    destruct (ensureReactLoadable_cases writable w) as [->|(Hnone & _ & ->)];
      [done|].
    cbn [Shim.store]. rewrite lookup_insert_ne; [done | congruence]. }
  cbn [negb]. by rewrite Hreact, Hpages.
Qed.

(** X18.  What the compatibility script creates, when [.next] exists and
    the three manifest paths are distinct: a missing
    [react-loadable-manifest.json] that can be written is created with the
    text [{}]; a missing root [pages-manifest.json] that can be written
    becomes a copy of the server one when that is a file, and stays missing
    when there is no server one. *)
Theorem shim_creates_the_manifests `{Node} (writable : string → bool)
    (w : Shim.World) :
  is_Some (Shim.store w !! Shim.nextDir) →
  Shim.reactLoadablePath ≠ Shim.rootPagesManifest →
  Shim.reactLoadablePath ≠ Shim.serverPagesManifest →
  (Shim.store w !! Shim.reactLoadablePath = None →
   writable Shim.reactLoadablePath = true →
   Shim.store (Shim.run writable w) !! Shim.reactLoadablePath
   = Some (Shim.File "{}")) ∧
  (∀ text,
     Shim.store w !! Shim.rootPagesManifest = None →
     Shim.store w !! Shim.serverPagesManifest = Some (Shim.File text) →
     writable Shim.rootPagesManifest = true →
     Shim.store (Shim.run writable w) !! Shim.rootPagesManifest
     = Some (Shim.File text)) ∧
  (Shim.store w !! Shim.rootPagesManifest = None →
   Shim.store w !! Shim.serverPagesManifest = None →
   Shim.store (Shim.run writable w) !! Shim.rootPagesManifest = None).
Proof.
  intros Hnext Hrr Hrs.
  assert (Shim.run writable w
          = Shim.ensurePagesManifest writable
              (Shim.ensureReactLoadable writable w)) as ->.
  { unfold Shim.run. apply present_true in Hnext. by rewrite Hnext. }
  assert (∀ p, p ≠ Shim.reactLoadablePath →
               Shim.store (Shim.ensureReactLoadable writable w) !! p
               = Shim.store w !! p) as Hstep1.
  { intros p Hp.
    destruct (ensureReactLoadable_cases writable w) as [->|(_ & _ & ->)];
      [done|]. cbn [Shim.store]. by rewrite lookup_insert_ne. }
  split_and!.
  - intros Hnone Hw.
    assert (Shim.store (Shim.ensureReactLoadable writable w)
              !! Shim.reactLoadablePath = Some (Shim.File "{}")) as Hmade.
    { unfold Shim.ensureReactLoadable, Shim.writeFileSync.
      apply present_false in Hnone. rewrite Hnone, Hw. cbn [Shim.store].
      apply lookup_insert_eq. }
    destruct (ensurePagesManifest_cases writable
                (Shim.ensureReactLoadable writable w))
      as [->|(text & _ & _ & _ & ->)]; [done|].
    cbn [Shim.store]. by rewrite lookup_insert_ne.
  - intros text Hroot Hserver Hw.
    unfold Shim.ensurePagesManifest, Shim.copyFileSync.
    rewrite !Hstep1 by done.
    assert (Shim.present (Shim.store (Shim.ensureReactLoadable writable w))
                         Shim.rootPagesManifest = false) as ->.
    { apply present_false. by rewrite Hstep1. }
    assert (Shim.present (Shim.store (Shim.ensureReactLoadable writable w))
                         Shim.serverPagesManifest = true) as ->.
    { apply present_true. rewrite Hstep1 by done. by eexists. }
    cbn [negb andb]. rewrite Hserver, Hw. cbn [Shim.store].
    apply lookup_insert_eq.
  - intros Hroot Hserver.
    unfold Shim.ensurePagesManifest.
    assert (Shim.present (Shim.store (Shim.ensureReactLoadable writable w))
                         Shim.serverPagesManifest = false) as ->.
    { apply present_false. by rewrite Hstep1. }
    rewrite andb_false_r. by rewrite Hstep1.
Qed.

Lemma shim_creates_the_manifests_witness :
  is_Some (Shim.store demoWorld !! @Shim.nextDir demoNode) ∧
  @Shim.reactLoadablePath demoNode ≠ @Shim.rootPagesManifest demoNode ∧
  @Shim.reactLoadablePath demoNode ≠ @Shim.serverPagesManifest demoNode ∧
  Shim.store (@Shim.run demoNode (fun _ => true) demoWorld)
    !! @Shim.rootPagesManifest demoNode
  = Some (Shim.File "{pages}").
Proof.
  split; [by compute_done|]. split; [by compute_done|].
  split; [by compute_done|].
  apply (proj1 (proj2 (@shim_creates_the_manifests demoNode (fun _ => true)
                         demoWorld ltac:(by compute_done)
                         ltac:(by compute_done) ltac:(by compute_done)))
           "{pages}"); reflexivity.
Defined.
